(** * filter_jsonl.py: schema projection, the SQLite sink, the driver and
    the compression pass, as a shallow embedding in Rocq. *)

From Stdlib Require Import List String Ascii ZArith Lia Bool DecimalString.
Import ListNotations.
Open Scope string_scope.
Open Scope list_scope.
Set Warnings "-register-all".

(* ------------------------------------------------------------------ *)
(** ** JSON values as json.loads produces them *)

(** A decoded JSON value.  Python dicts are kept as association lists in
    insertion order (CPython dicts preserve it); numbers are integers. *)
Inductive json : Type :=
| JNull
| JBool (b : bool)
| JNum (z : Z)
| JStr (s : string)
| JArr (xs : list json)
| JObj (kvs : list (string * json)).

Definition dict := list (string * json).

(** [d.get(k)] / [d[k]] / [k in d]: the first binding of [k]. *)
Fixpoint dict_lookup (k : string) (d : dict) : option json :=
  match d with
  | [] => None
  | (k', v) :: d' => if String.eqb k k' then Some v else dict_lookup k d'
  end.

(** [d[k] = v]: an existing key keeps its position, a new key is appended. *)
Fixpoint dict_set (k : string) (v : json) (d : dict) : dict :=
  match d with
  | [] => [(k, v)]
  | (k', v') :: d' =>
      if String.eqb k k' then (k', v) :: d' else (k', v') :: dict_set k v d'
  end.

(** [d.get(k, default)] *)
Definition dict_get (d : dict) (k : string) (default : json) : json :=
  match dict_lookup k d with Some v => v | None => default end.

(* ------------------------------------------------------------------ *)
(** ** filter_by_schema (lines 43-69)

    The schema is itself a decoded JSON value; Python's [None] (the result
    of a schema that failed to parse, or a JSON [null] leaf) is [JNull].
    [for key in schema.keys(): ... schema[key]] walks the schema dict's
    items in order. *)
Fixpoint filter_keys (filter : json -> json -> json) (okv : dict)
    (s : dict) (result : dict) : dict :=
  match s with
  | [] => result
  | (key, sv) :: s' =>
      match dict_lookup key okv with
      | Some ov => filter_keys filter okv s' (dict_set key (filter ov sv) result)
      | None => filter_keys filter okv s' result
      end
  end.

Fixpoint filter_by_schema (obj : json) (schema : json) {struct schema} : json :=
  match schema with
  | JNull => obj
  | JObj skv =>
      match obj with
      | JObj okv => JObj (filter_keys filter_by_schema okv skv [])
      | _ => obj
      end
  | JArr (element_schema :: _) =>
      match obj with
      | JArr items => JArr (map (fun item => filter_by_schema item element_schema) items)
      | _ => obj
      end
  | _ => obj
  end.

Example filter_by_schema_spec_example :
  filter_by_schema
    (JObj [("a", JNum 1); ("b", JNum 2); ("c", JNum 3)])
    (JObj [("b", JStr ""); ("a", JStr "")])
  = JObj [("b", JNum 2); ("a", JNum 1)].
Proof. reflexivity. Qed.

Definition keys (d : dict) : list string := map fst d.

(** What the object branch should produce, read off the loop: one item per
    schema key found in the record, in schema order. *)
Definition projected_items (okv skv : dict) : dict :=
  flat_map (fun '(k, sv) =>
              match dict_lookup k okv with
              | Some ov => [(k, filter_by_schema ov sv)]
              | None => []
              end) skv.

Definition has_key (d : dict) (k : string) : bool :=
  match dict_lookup k d with Some _ => true | None => false end.

(* ------------------------------------------------------------------ *)
(** ** Exceptions and the error monad

    A raised exception ends the computation; [main]'s [try/finally] is
    modelled where it matters. *)
Inductive error : Type :=
| AttributeError          (* [.get] on a value that is not a dict *)
| JSONDecodeError         (* [json.loads] on a malformed line *)
| IntegrityError          (* NOT NULL constraint failed *)
| ProgrammingError        (* unsupported parameter type, or closed database *)
| ZeroDivisionError
| OverflowError           (* an int outside SQLite's 64-bit range *)
| OSError.

Inductive result (A : Type) : Type :=
| Ok (a : A)
| Err (e : error).
Arguments Ok {A} a.
Arguments Err {A} e.

Definition bind {A B} (m : result A) (k : A -> result B) : result B :=
  match m with Ok a => k a | Err e => Err e end.

Notation "x <- m ;; k" := (bind m (fun x => k))
  (at level 61, m at next level, right associativity).

(* ------------------------------------------------------------------ *)
(** ** SQLite values and the [entries] database built by init_sqlite_db *)

Inductive sqlval : Type :=
| SqlNull
| SqlInt (z : Z)
| SqlText (s : string).

(** The range of an SQLite INTEGER, a signed 64-bit integer. *)
Definition sqlite_int_min : Z := (- 2 ^ 63)%Z.
Definition sqlite_int_max : Z := (2 ^ 63 - 1)%Z.

(** Parameter binding of the sqlite3 module: [None], [bool]/[int] and [str]
    bind, an [int] only within the 64-bit range (OverflowError otherwise);
    a [list] or [dict] is refused. *)
Definition bind_param (v : json) : result sqlval :=
  match v with
  | JNull => Ok SqlNull
  | JBool b => Ok (SqlInt (if b then 1 else 0)%Z)
  | JNum z =>
      if (Z.leb sqlite_int_min z && Z.leb z sqlite_int_max)%bool
      then Ok (SqlInt z) else Err OverflowError
  | JStr s => Ok (SqlText s)
  | JArr _ | JObj _ => Err ProgrammingError
  end.

(** TEXT column affinity: a number is stored as its decimal text. *)
Definition text_affinity (v : sqlval) : sqlval :=
  match v with
  | SqlInt z => SqlText (DecimalString.NilZero.string_of_int (Z.to_int z))
  | _ => v
  end.

(** A row of [entries (id, word, pos, data)].  [data] holds
    [json.dumps(filtered_obj)]; the text is represented by the value it
    serialises. *)
Record row : Type := mkRow {
  row_id : Z;
  row_word : sqlval;
  row_pos : sqlval;
  row_data : json
}.

(** The database file: the primary table, the AUTOINCREMENT counter
    (sqlite_sequence), the two FTS5 tables [entries_fts] and
    [entries_fts_trigram] as the (rowid, word) pairs inserted into them,
    and whether the connection is open. *)
Record database : Type := mkDatabase {
  entries : list row;
  entries_seq : Z;
  entries_fts : list (Z * sqlval);
  entries_fts_trigram : list (Z * sqlval);
  conn_open : bool
}.

(** init_sqlite_db: any existing file is removed, the tables, triggers and
    index are created on an empty database. *)
Definition init_sqlite_db : database := mkDatabase [] 0%Z [] [] true.

(** [INSERT INTO entries (word, pos, data) VALUES (?, ?, ?)] with its
    AFTER INSERT trigger [entries_ai]: the NOT NULL check on [word] rejects
    the statement, otherwise the row gets the next AUTOINCREMENT id and the
    trigger inserts [(new.id, new.word)] into both FTS5 tables. *)
Definition insert_entry (word pos : sqlval) (data : json) (d : database)
  : result database :=
  let w := text_affinity word in
  match w with
  | SqlNull => Err IntegrityError
  | _ =>
      let id := (entries_seq d + 1)%Z in
      Ok (mkDatabase (entries d ++ [mkRow id w (text_affinity pos) data])
                     id
                     (entries_fts d ++ [(id, w)])
                     (entries_fts_trigram d ++ [(id, w)])
                     (conn_open d))
  end.

(** A batched entry [(word, pos, data)] as the Python tuple holds it. *)
Definition entry : Type := (json * json * json)%type.

(** [cursor.executemany(INSERT ..., batch)]: refused on a closed
    connection; each parameter tuple is bound and inserted in order. *)
Fixpoint insert_all (batch : list entry) (d : database) : result database :=
  match batch with
  | [] => Ok d
  | (word, pos, data) :: rest =>
      w <- bind_param word ;;
      p <- bind_param pos ;;
      d' <- insert_entry w p data d ;;
      insert_all rest d'
  end.

Definition executemany (batch : list entry) (d : database) : result database :=
  if conn_open d then insert_all batch d else Err ProgrammingError.

(* ------------------------------------------------------------------ *)
(** ** class SqliteOutput (lines 179-212) *)

Record SqliteOutput : Type := mkSqliteOutput {
  conn : database;
  batch : list entry;
  batch_size : nat
}.

Definition SqliteOutput_init : SqliteOutput :=
  mkSqliteOutput init_sqlite_db [] 100.

Definition set_conn (self : SqliteOutput) (d : database) : SqliteOutput :=
  mkSqliteOutput d (batch self) (batch_size self).

Definition set_batch (self : SqliteOutput) (b : list entry) : SqliteOutput :=
  mkSqliteOutput (conn self) b (batch_size self).

(** flush: [if self.batch:] executemany, commit, clear.  A failing
    statement leaves nothing committed. *)
Definition flush (self : SqliteOutput) : result SqliteOutput :=
  match batch self with
  | [] => Ok self
  | b =>
      d <- executemany b (conn self) ;;
      Ok (mkSqliteOutput d [] (batch_size self))
  end.

(** write: [filtered_obj.get('word', '')], [.get('pos', '')], json.dumps,
    append, flush when the batch has reached [batch_size]. *)
Definition write (self : SqliteOutput) (filtered_obj : json)
  : result SqliteOutput :=
  match filtered_obj with
  | JObj d =>
      let word := dict_get d "word" (JStr "") in
      let pos := dict_get d "pos" (JStr "") in
      let self' := set_batch self (batch self ++ [(word, pos, filtered_obj)]) in
      if Nat.leb (batch_size self') (List.length (batch self'))
      then flush self' else Ok self'
  | _ => Err AttributeError
  end.

(** close: flush, then [self.conn.close()]. *)
Definition close (self : SqliteOutput) : result SqliteOutput :=
  self' <- flush self ;;
  let d := conn self' in
  Ok (set_conn self' (mkDatabase (entries d) (entries_seq d) (entries_fts d)
                                 (entries_fts_trigram d) false)).

(** A sequence of [write] calls. *)
Fixpoint write_all (self : SqliteOutput) (objs : list json)
  : result SqliteOutput :=
  match objs with
  | [] => Ok self
  | o :: objs' => self' <- write self o ;; write_all self' objs'
  end.

(** A fresh sink, the writes, then [close()]. *)
Definition run_store (objs : list json) : result SqliteOutput :=
  self <- write_all SqliteOutput_init objs ;; close self.

(** A batched entry the INSERT accepts: [word] binds to a non-null value
    and [pos] binds (see [bind_param] for the integer range). *)
Definition entry_storable (e : entry) : bool :=
  let '(word, pos, _) := e in
  match bind_param word, bind_param pos with
  | Ok SqlNull, _ => false
  | Ok _, Ok _ => true
  | _, _ => false
  end.

(** The entry [write] builds from a projected record. *)
Definition entry_of (d : dict) (filtered_obj : json) : entry :=
  (dict_get d "word" (JStr ""), dict_get d "pos" (JStr ""), filtered_obj).

(** A projected record the sink stores without error. *)
Definition storable (o : json) : bool :=
  match o with
  | JObj d => entry_storable (entry_of d o)
  | _ => false
  end.

(** The invariant of the two FTS5 tables: each is the (id, word)
    projection of [entries], and the ids are distinct and issued by the
    AUTOINCREMENT counter. *)
Definition fts_row (r : row) : Z * sqlval := (row_id r, row_word r).

Definition fts_in_sync (d : database) : Prop :=
  entries_fts d = map fts_row (entries d) /\
  entries_fts_trigram d = map fts_row (entries d) /\
  NoDup (map row_id (entries d)) /\
  Forall (fun r => (row_id r <= entries_seq d)%Z) (entries d).

(** The FTS entries filed under identity [id]. *)
Definition fts_entries_for (id : Z) (fts : list (Z * sqlval)) : list (Z * sqlval) :=
  filter (fun p => Z.eqb (fst p) id) fts.

(* ------------------------------------------------------------------ *)
(** ** The output handlers and the main loop (lines 215-313) *)

(** What [main] needs of an output handler: [write] and [close]. *)
Class OutputHandler (sink : Type) := {
  handler_write : sink -> json -> result sink;
  handler_close : sink -> result sink
}.

#[export] Instance SqliteOutput_handler : OutputHandler SqliteOutput := {
  handler_write := write;
  handler_close := close
}.

(** class JsonlOutput: each record is one [json.dumps] line, kept as the
    value it serialises. *)
Record JsonlOutput : Type := mkJsonlOutput {
  output : list json;
  should_close : bool
}.

#[export] Instance JsonlOutput_handler : OutputHandler JsonlOutput := {
  handler_write := fun self o => Ok (mkJsonlOutput (output self ++ [o]) (should_close self));
  handler_close := fun self => Ok self
}.

(** A line of the input file, through [json.loads]. *)
Inductive raw_line : Type :=
| Decodes (v : json)
| Undecodable.

(** [obj.get('lang_code') != 'fr'] is false. *)
Definition is_fr (d : dict) : bool :=
  match dict_lookup "lang_code" d with
  | Some (JStr s) => String.eqb s "fr"
  | _ => false
  end.

(** The [for line in f:] loop of [main], from [lines_read] and
    [lines_output] so far; it returns the two counters and the handler.
    [n] is the optional integer of [sys.argv[1]]. *)
Fixpoint process_lines {sink} `{OutputHandler sink} (n : option Z) (schema : json)
    (lines : list raw_line) (lines_read lines_output : nat) (h : sink)
  : result (nat * nat * sink) :=
  match lines with
  | [] => Ok (lines_read, lines_output, h)
  | line :: rest =>
      let lines_read := S lines_read in
      match line with
      | Undecodable => Err JSONDecodeError
      | Decodes (JObj d as obj) =>
          if negb (is_fr d) then process_lines n schema rest lines_read lines_output h
          else
            h' <- handler_write h (filter_by_schema obj schema) ;;
            let lines_output := S lines_output in
            match n with
            | Some n' =>
                if Z.geb (Z.of_nat lines_output) n' then Ok (lines_read, lines_output, h')
                else process_lines n schema rest lines_read lines_output h'
            | None => process_lines n schema rest lines_read lines_output h'
            end
      | Decodes _ => Err AttributeError
      end
  end.

(** The records of a stretch of input that pass the [lang_code] test. *)
Fixpoint fr_records (lines : list raw_line) : list json :=
  match lines with
  | [] => []
  | Decodes (JObj d as obj) :: rest => if is_fr d then obj :: fr_records rest else fr_records rest
  | _ :: rest => fr_records rest
  end.

Definition line_is_dict (l : raw_line) : bool :=
  match l with Decodes (JObj _) => true | _ => false end.

(** Successive [write] calls on a handler. *)
Fixpoint write_seq {sink} `{OutputHandler sink} (h : sink) (objs : list json) : result sink :=
  match objs with
  | [] => Ok h
  | o :: objs' => h' <- handler_write h o ;; write_seq h' objs'
  end.

(* ------------------------------------------------------------------ *)
(** ** compress_sqlite_db (lines 72-102) *)

Definition bytes : Type := list Byte.byte.

(** The files on disk, path to contents. *)
Definition filesystem : Type := list (string * bytes).

Fixpoint fs_lookup (p : string) (fs : filesystem) : option bytes :=
  match fs with
  | [] => None
  | (q, b) :: fs' => if String.eqb p q then Some b else fs_lookup p fs'
  end.

Fixpoint fs_set (p : string) (b : bytes) (fs : filesystem) : filesystem :=
  match fs with
  | [] => [(p, b)]
  | (q, c) :: fs' => if String.eqb p q then (q, b) :: fs' else (q, c) :: fs_set p b fs'
  end.

Definition fs_remove (p : string) (fs : filesystem) : filesystem :=
  filter (fun '(q, _) => negb (String.eqb p q)) fs.

(** Which I/O operation of a run raises [OSError], if any.  A failing
    write leaves the first [k] bytes on disk. *)
Inductive io_fault : Type :=
| NoFault
| ReadFails
| OpenWriteFails
| WriteFailsAfter (k : nat)
| GetsizeFails
| RemoveFails.

(** File-system effects with exceptions: the state survives a raise. *)
Definition io (A : Type) : Type := filesystem -> filesystem * result A.

Definition io_ret {A} (a : A) : io A := fun fs => (fs, Ok a).
Definition io_raise {A} (e : error) : io A := fun fs => (fs, Err e).
Definition io_bind {A B} (m : io A) (k : A -> io B) : io B :=
  fun fs => let '(fs', r) := m fs in
            match r with Ok a => k a fs' | Err e => (fs', Err e) end.

Notation "x <-- m ;; k" := (io_bind m (fun x => k))
  (at level 61, m at next level, right associativity).

Section Compression.
Variable fault : io_fault.

(** [with open(p, 'rb') as f: f.read()] *)
Definition read_file (p : string) : io bytes := fun fs =>
  match fault, fs_lookup p fs with
  | ReadFails, _ => (fs, Err OSError)
  | _, Some b => (fs, Ok b)
  | _, None => (fs, Err OSError)
  end.

(** [open(p, 'wb')]: creates or truncates the file. *)
Definition open_write (p : string) : io unit := fun fs =>
  match fault with
  | OpenWriteFails => (fs, Err OSError)
  | _ => (fs_set p [] fs, Ok tt)
  end.

(** [f_out.write(data)] up to the file's close at the end of [with]. *)
Definition write_bytes (p : string) (data : bytes) : io unit := fun fs =>
  match fault with
  | WriteFailsAfter k => (fs_set p (firstn k data) fs, Err OSError)
  | _ => (fs_set p data fs, Ok tt)
  end.

(** [os.path.getsize(p)] *)
Definition getsize (p : string) : io nat := fun fs =>
  match fault, fs_lookup p fs with
  | GetsizeFails, _ => (fs, Err OSError)
  | _, Some b => (fs, Ok (List.length b))
  | _, None => (fs, Err OSError)
  end.

(** [os.remove(p)] *)
Definition remove (p : string) : io unit := fun fs =>
  match fault, fs_lookup p fs with
  | RemoveFails, _ => (fs, Err OSError)
  | _, Some _ => (fs_remove p fs, Ok tt)
  | _, None => (fs, Err OSError)
  end.

(** The codec [liblzfse.compress], a pure byte transform. *)
Variable lzfse_compress : bytes -> bytes.

Definition compress_sqlite_db (db_path : string) : io string :=
  let compressed_path := String.append db_path ".lzfse" in
  data <-- read_file db_path ;;
  let compressed_data := lzfse_compress data in
  _ <-- open_write compressed_path ;;
  _ <-- write_bytes compressed_path compressed_data ;;
  original_size <-- getsize db_path ;;
  compressed_size <-- getsize compressed_path ;;
  (* ratio = (1 - compressed_size / original_size) * 100 *)
  _ <-- (if Nat.eqb original_size 0 then io_raise ZeroDivisionError else io_ret tt) ;;
  _ <-- remove db_path ;;
  io_ret compressed_path.

End Compression.

(** Records used to exercise the main loop. *)
Definition fr_chat : json := JObj [("word", JStr "chat"); ("lang_code", JStr "fr"); ("pos", JStr "noun")].
Definition en_cat : json := JObj [("word", JStr "cat"); ("lang_code", JStr "en")].
Definition fr_chien : json := JObj [("word", JStr "chien"); ("lang_code", JStr "fr")].
Definition word_schema : json := JObj [("word", JStr "")].

(* ------------------------------------------------------------------ *)
(** ** Well-formed schemas *)

(** No key occurs twice, as in any dict [json.loads] returns. *)
Fixpoint nodup_keys (d : dict) : bool :=
  match d with
  | [] => true
  | (k, _) :: d' => negb (existsb (String.eqb k) (keys d')) && nodup_keys d'
  end.

(** A schema whose dicts, at every level that [filter_by_schema] visits,
    have distinct keys. *)
Fixpoint schema_wf (s : json) : bool :=
  match s with
  | JObj kvs =>
      nodup_keys kvs &&
      (fix all_wf (l : dict) : bool :=
         match l with
         | [] => true
         | (_, v) :: l' => schema_wf v && all_wf l'
         end) kvs
  | JArr (e :: _) => schema_wf e
  | _ => true
  end.

(* ------------------------------------------------------------------ *)
(** ** The rows the INSERT statement stores *)

(** The row [INSERT INTO entries (word, pos, data) VALUES (?, ?, ?)]
    creates for a batched entry under the id [id], read off the schema of
    init_sqlite_db: both parameters bind, [word] is NOT NULL, the two TEXT
    columns apply their affinity.  [None] when the statement raises. *)
Definition expected_row (id : Z) (e : entry) : option row :=
  let '(word, pos, data) := e in
  match bind_param word, bind_param pos with
  | Ok w, Ok p =>
      match text_affinity w with
      | SqlNull => None
      | w' => Some (mkRow id w' (text_affinity p) data)
      end
  | _, _ => None
  end.

(** The rows of a batch inserted with consecutive ids from [id], up to the
    first entry the statement refuses. *)
Fixpoint expected_rows (id : Z) (es : list entry) : list row :=
  match es with
  | [] => []
  | e :: es' =>
      match expected_row id e with
      | Some r => r :: expected_rows (id + 1)%Z es'
      | None => []
      end
  end.

(** The rows a run of [write] calls on projected records followed by
    [close] should leave in [entries]: one per record, in write order, with
    ids 1, 2, ... *)
Fixpoint stored_rows (id : Z) (objs : list json) : list row :=
  match objs with
  | [] => []
  | JObj d as o :: objs' =>
      match expected_row id (entry_of d o) with
      | Some r => r :: stored_rows (id + 1)%Z objs'
      | None => []
      end
  | _ :: _ => []
  end.

Definition dict_entry (d : dict) : entry := entry_of d (JObj d).

(* ------------------------------------------------------------------ *)
(** ** main's try/finally (lines 282-322) *)

(** The loop of [main] inside its [try], as [process_lines], but keeping
    the handler when the loop itself raises ([json.loads] on a malformed
    line, [.get] on a value that is not a dict), for the [finally] clause.
    [Err] is an exception raised by the handler's [write]; the state of a
    handler whose [write] raised is not modelled. *)
Fixpoint main_loop {sink} `{OutputHandler sink} (n : option Z) (schema : json)
    (lines : list raw_line) (lines_read lines_output : nat) (h : sink)
  : result (sink * result (nat * nat)) :=
  match lines with
  | [] => Ok (h, Ok (lines_read, lines_output))
  | line :: rest =>
      let lines_read := S lines_read in
      match line with
      | Undecodable => Ok (h, Err JSONDecodeError)
      | Decodes (JObj d as obj) =>
          if negb (is_fr d) then main_loop n schema rest lines_read lines_output h
          else
            h' <- handler_write h (filter_by_schema obj schema) ;;
            let lines_output := S lines_output in
            match n with
            | Some n' =>
                if Z.geb (Z.of_nat lines_output) n' then Ok (h', Ok (lines_read, lines_output))
                else main_loop n schema rest lines_read lines_output h'
            | None => main_loop n schema rest lines_read lines_output h'
            end
      | Decodes _ => Ok (h, Err AttributeError)
      end
  end.

(** Python's truth value of a decoded JSON value. *)
Definition py_truthy (v : json) : bool :=
  match v with
  | JNull => false
  | JBool b => b
  | JNum z => negb (Z.eqb z 0)
  | JStr s => negb (String.eqb s "")
  | JArr xs => match xs with [] => false | _ => true end
  | JObj kvs => match kvs with [] => false | _ => true end
  end.

(** Lines 283-284: [if schema:] prints [sorted(schema.keys())]; a truthy
    schema that is not a dict has no [keys] and raises AttributeError. *)
Definition schema_keys_check (schema : json) : result unit :=
  if py_truthy schema then
    match schema with JObj _ => Ok tt | _ => Err AttributeError end
  else Ok tt.

(** Lines 283-322.  The schema banner runs before the [try]: when it raises,
    nothing is read and the handler is not closed.  Then [try: ...
    finally:]: the handler is closed whether the loop ends or raises, and
    the loop's exception propagates afterwards; an exception of [close]
    replaces it.  [compress] is the [if use_sqlite and compress_db:] step
    of the [finally] clause: [None] when it is not requested, [Some r] with
    [r] the outcome of [compress_sqlite_db] on the closed database's file;
    an exception it raises replaces the loop's outcome too.  The result is
    the closed handler and the outcome of the loop (the two counters). *)
Definition main_run {sink} `{OutputHandler sink} (n : option Z) (schema : json)
    (lines : list raw_line) (h0 : sink) (compress : option (result string))
  : result (sink * result (nat * nat)) :=
  _ <- schema_keys_check schema ;;
  res <- main_loop n schema lines 0 0 h0 ;;
  let '(h, outcome) := res in
  h' <- handler_close h ;;
  _ <- match compress with Some r => r | None => Ok "" end ;;
  Ok (h', outcome).

(* ------------------------------------------------------------------ *)
(** ** main's command line (lines 232-279) *)

(** What [main] takes from [sys.argv]. *)
Record config : Type := mkConfig {
  limit : option Z;
  use_sqlite : bool;
  compress_db : bool;
  db_file : option string;
  input_file : string;
  schema_file : string;
  output_file : option string
}.

Section Args.
(** Python's [int()] on a string: [None] where it raises ValueError. *)
Variable py_int : string -> option Z.

(** [sys.argv[i] if len(sys.argv) > i else default] *)
Definition arg_default (argv : list string) (i : nat) (default : string) : string :=
  match nth_error argv i with Some a => a | None => default end.

(** [n = int(sys.argv[1])] when there are two arguments and it parses, and
    the offset of the next argument. *)
Definition parse_limit (argv : list string) : option Z * nat :=
  if Nat.leb 2 (List.length argv) then
    match nth_error argv 1 with
    | Some a => match py_int a with Some z => (Some z, 2) | None => (None, 1) end
    | None => (None, 1)
    end
  else (None, 1).

(** The whole argument parsing; [None] is [sys.exit(1)]. *)
Definition parse_args (argv : list string) : option config :=
  let '(n, arg_offset) := parse_limit argv in
  let jsonl :=
    Some (mkConfig n false false None
            (arg_default argv arg_offset "fr-extract.jsonl")
            (arg_default argv (arg_offset + 1) "schema.json")
            (nth_error argv (arg_offset + 2))) in
  match nth_error argv arg_offset with
  | Some a =>
      if String.eqb a "--sqlite" then
        match nth_error argv (arg_offset + 1) with
        | None => None
        | Some db =>
            let arg_offset := arg_offset + 2 in
            let '(compress_db, arg_offset) :=
              match nth_error argv arg_offset with
              | Some c => if String.eqb c "--compress" then (true, arg_offset + 1)
                          else (false, arg_offset)
              | None => (false, arg_offset)
              end in
            Some (mkConfig n true compress_db (Some db)
                    (arg_default argv arg_offset "fr-extract.jsonl")
                    (arg_default argv (arg_offset + 1) "schema.json")
                    None)
        end
      else jsonl
  | None => jsonl
  end.
End Args.

(** The command line that spells out a configuration in the order of the
    usage text: [n], then [--sqlite db [--compress]] and the input and
    schema files, or the input, schema and optional output files. *)
Definition config_args (show_int : Z -> string) (c : config) : list string :=
  (match limit c with Some z => [show_int z] | None => [] end) ++
  (if use_sqlite c then
     "--sqlite" :: (match db_file c with Some db => [db] | None => [] end) ++
     (if compress_db c then ["--compress"] else []) ++ [input_file c; schema_file c]
   else
     [input_file c; schema_file c] ++ (match output_file c with Some o => [o] | None => [] end)).

(** Whether [lines_output = k] is still below the optional limit. *)
Definition below_limit (n : option Z) (k : nat) : Prop :=
  match n with Some n' => (Z.of_nat k < n')%Z | None => True end.

(** Decimal integer literals, as [int()] reads them when there is no
    surrounding whitespace and no underscore. *)
Definition decimal_int (s : string) : option Z :=
  option_map Z.of_int (DecimalString.NilZero.int_of_string s).

(* ------------------------------------------------------------------ *)
(** ** Size of a JSON value *)

(** Number of nodes: one per value, plus one per dict item. *)
Fixpoint json_size (j : json) : nat :=
  match j with
  | JArr xs =>
      S ((fix go (l : list json) : nat :=
            match l with [] => 0 | x :: l' => json_size x + go l' end) xs)
  | JObj kvs =>
      S ((fix go (l : dict) : nat :=
            match l with [] => 0 | (_, v) :: l' => S (json_size v) + go l' end) kvs)
  | _ => 1
  end.

(* ------------------------------------------------------------------ *)
(** ** parse_schema_structure: the trailing-comma pass (line 32)

    The schema text as ASCII characters. *)

(** [\s] of Python's [re] on a str pattern, on ASCII: tab to carriage
    return, the four separators 0x1c-0x1f, and space. *)
Definition py_space (c : ascii) : bool :=
  let n := nat_of_ascii c in
  (Nat.leb 9 n && Nat.leb n 13) || (Nat.leb 28 n && Nat.leb n 32).

(** Matching [(\s*[}\]])] at the start of a text: group 1 and the text
    after the match.  Backtracking into the greedy [\s*] never helps, since
    a whitespace character is not a bracket. *)
Fixpoint match_close (s : list ascii) : option (list ascii * list ascii) :=
  match s with
  | [] => None
  | c :: s' =>
      if py_space c then
        match match_close s' with
        | Some (g, rest) => Some (c :: g, rest)
        | None => None
        end
      else if Ascii.eqb c "}"%char || Ascii.eqb c "]"%char then Some ([c], s')
      else None
  end.

(** [re.sub(r',(\s*[}\]])', r'\1', content)]: the scan goes left to
    right; a match is replaced by its group 1 and the scan resumes after
    it; any other character is kept.  [fuel] bounds the scan. *)
Fixpoint sub_trailing_commas (fuel : nat) (s : list ascii) : list ascii :=
  match fuel with
  | O => s
  | S fuel' =>
      match s with
      | [] => []
      | c :: s' =>
          if Ascii.eqb c ","%char then
            match match_close s' with
            | Some (g, rest) => g ++ sub_trailing_commas fuel' rest
            | None => c :: sub_trailing_commas fuel' s'
            end
          else c :: sub_trailing_commas fuel' s'
      end
  end.

Definition remove_trailing_commas (content : list ascii) : list ascii :=
  sub_trailing_commas (List.length content) content.

(** What the pass is meant to do, read as a filter on the original text:
    drop each comma followed by whitespace and a closing bracket. *)
Fixpoint drop_commas_before_close (s : list ascii) : list ascii :=
  match s with
  | [] => []
  | c :: s' =>
      if Ascii.eqb c ","%char && (match match_close s' with Some _ => true | None => false end)
      then drop_commas_before_close s'
      else c :: drop_commas_before_close s'
  end.

Definition not_comma (c : ascii) : bool := negb (Ascii.eqb c ","%char).

(* ------------------------------------------------------------------ *)
(** ** parse_schema_structure: the [\bnumber\b] pass (line 31) *)

(** A word character of Python's [re] on ASCII: letters, digits, [_]. *)
Definition is_word (c : ascii) : bool :=
  let n := nat_of_ascii c in
  (Nat.leb 48 n && Nat.leb n 57) || (Nat.leb 65 n && Nat.leb n 90) ||
  (Nat.leb 97 n && Nat.leb n 122) || Nat.eqb n 95.

Definition number_word : list ascii := list_ascii_of_string "number".

(** The double quote character, code 34. *)
Definition dquote : ascii := ascii_of_nat 34.

Fixpoint starts_with (p s : list ascii) : bool :=
  match p, s with
  | [], _ => true
  | c :: p', d :: s' => Ascii.eqb c d && starts_with p' s'
  | _ :: _, [] => false
  end.

(** [\b] after a word character: the end of the text or a non-word
    character follows. *)
Definition next_not_word (s : list ascii) : bool :=
  match s with [] => true | c :: _ => negb (is_word c) end.

(** [re.sub(r'\bnumber\b', '0', content)]: the scan goes left to right;
    [prev_word] says whether the character before the scan position is a
    word character ([\b] before [n]); a match is replaced by [0] and the
    scan resumes after it.  [fuel] bounds the scan. *)
Fixpoint sub_number (fuel : nat) (prev_word : bool) (s : list ascii) : list ascii :=
  match fuel with
  | O => s
  | S fuel' =>
      match s with
      | [] => []
      | c :: s' =>
          if negb prev_word && starts_with number_word s && next_not_word (skipn 6 s)
          then "0"%char :: sub_number fuel' true (skipn 6 s)
          else c :: sub_number fuel' (is_word c) s'
      end
  end.

Definition replace_number (content : list ascii) : list ascii :=
  sub_number (List.length content) false content.

(** Whether the last character of [a] is a word character, [pw] for an
    empty [a]. *)
Fixpoint last_word (pw : bool) (a : list ascii) : bool :=
  match a with [] => pw | c :: a' => last_word (is_word c) a' end.

(* ------------------------------------------------------------------ *)
(** ** Dictionary lemmas *)

Lemma dict_set_fresh k v r :
  ~ In k (keys r) -> dict_set k v r = r ++ [(k, v)].
Proof.
  induction r as [|[k' v'] r IH]; intro Hn; simpl in *; [reflexivity|].
  destruct (String.eqb_spec k k') as [->|Hne]; [tauto|].
  rewrite IH; [reflexivity | tauto].
Qed.

Lemma dict_lookup_in k v d : dict_lookup k d = Some v -> In (k, v) d.
Proof.
  induction d as [|[k' v'] d IH]; simpl; [discriminate|].
  destruct (String.eqb_spec k k') as [->|]; [injection 1 as ->; auto | auto].
Qed.

Lemma dict_lookup_nodup k v d :
  NoDup (keys d) -> In (k, v) d -> dict_lookup k d = Some v.
Proof.
  induction d as [|[k' v'] d IH]; simpl; [tauto|].
  intros Hnd Hin; inversion Hnd as [|? ? Hnotin Hnd']; subst.
  destruct (String.eqb_spec k k') as [->|Hne].
  - destruct Hin as [Heq|Hin]; [congruence|].
    exfalso; apply Hnotin; apply (in_map fst) in Hin; exact Hin.
  - destruct Hin as [Heq|Hin]; [congruence | auto].
Qed.

Lemma keys_projected_items okv s :
  keys (projected_items okv s) = filter (has_key okv) (keys s).
Proof.
  induction s as [|[k sv] s IH]; simpl; [reflexivity|].
  unfold has_key at 1; destruct (dict_lookup k okv); simpl; rewrite IH; reflexivity.
Qed.

Lemma filter_keys_spec okv s r :
  NoDup (keys s) -> (forall k, In k (keys s) -> ~ In k (keys r)) ->
  filter_keys filter_by_schema okv s r = r ++ projected_items okv s.
Proof.
  revert r; induction s as [|[k sv] s IH]; intros r Hnd Hdisj; simpl.
  - rewrite app_nil_r; reflexivity.
  - inversion Hnd as [|? ? Hnotin Hnd']; subst.
    destruct (dict_lookup k okv) as [ov|].
    + rewrite dict_set_fresh by (apply Hdisj; simpl; auto).
      rewrite IH; [rewrite <- app_assoc; reflexivity | exact Hnd' |].
      intros k' Hk'; unfold keys; rewrite map_app; simpl.
      rewrite in_app_iff; simpl; intros [H|[H|H]];
        [ exact (Hdisj k' (or_intror Hk') H) | subst; contradiction | exact H ].
    + apply IH; [exact Hnd'|]. intros k' Hk'; apply Hdisj; simpl; auto.
Qed.

Lemma lookup_projected_items okv s k v :
  NoDup (keys s) ->
  dict_lookup k (projected_items okv s) = Some v <->
  exists ov sv, dict_lookup k okv = Some ov /\ dict_lookup k s = Some sv /\
                v = filter_by_schema ov sv.
Proof.
  induction s as [|[k' sv'] s IH]; intro Hnd; simpl; [split; [discriminate | firstorder congruence]|].
  inversion Hnd as [|? ? Hnotin Hnd']; subst.
  destruct (String.eqb_spec k k') as [->|Hne].
  - destruct (dict_lookup k' okv) as [ov|] eqn:Hl; simpl; rewrite ?String.eqb_refl.
    + split; [injection 1 as <-; eauto | intros (ov' & sv & Hov & Hsv & ->); congruence].
    + split.
      * intro Hin; apply dict_lookup_in, (in_map fst) in Hin.
        rewrite keys_projected_items, filter_In in Hin; tauto.
      * intros (ov' & sv & Hov & _); congruence.
  - destruct (dict_lookup k' okv) as [ov|]; simpl;
      [destruct (String.eqb_spec k k'); [contradiction|] |]; apply IH; exact Hnd'.
Qed.

(* ------------------------------------------------------------------ *)
(** ** The FTS5 tables follow [entries] *)

Lemma NoDup_snoc {A} (l : list A) a : NoDup l -> ~ In a l -> NoDup (l ++ [a]).
Proof.
  induction l as [|x l IH]; simpl; intros Hnd Hn; [constructor; [tauto | constructor]|].
  inversion Hnd as [|? ? Hx Hl]; subst; constructor.
  - rewrite in_app_iff; simpl; intuition.
  - apply IH; tauto.
Qed.

Lemma insert_entry_sync w p x d d' :
  fts_in_sync d -> insert_entry w p x d = Ok d' -> fts_in_sync d'.
Proof.
  unfold insert_entry; cbn zeta; intros (H1 & H2 & H3 & H4) E.
  destruct (text_affinity w) as [|z|s0]; [discriminate| |];
  injection E as <-; unfold fts_in_sync; cbn [entries entries_fts entries_fts_trigram entries_seq];
  rewrite map_app, H1, H2; (split; [reflexivity | split; [reflexivity | split]]);
  [ rewrite map_app; apply NoDup_snoc; [exact H3|];
    intros Hin; apply in_map_iff in Hin as (r & Hr & Hin);
    rewrite Forall_forall in H4; specialize (H4 r Hin); simpl in Hr; lia
  | apply Forall_app; split;
    [ eapply Forall_impl; [|exact H4]; simpl; intros; lia
    | constructor; [simpl; lia | constructor] ]
  | rewrite map_app; apply NoDup_snoc; [exact H3|];
    intros Hin; apply in_map_iff in Hin as (r & Hr & Hin);
    rewrite Forall_forall in H4; specialize (H4 r Hin); simpl in Hr; lia
  | apply Forall_app; split;
    [ eapply Forall_impl; [|exact H4]; simpl; intros; lia
    | constructor; [simpl; lia | constructor] ] ].
Qed.

Lemma insert_all_sync b : forall d d',
  fts_in_sync d -> insert_all b d = Ok d' -> fts_in_sync d'.
Proof.
  induction b as [|[[w p] x] b IH]; simpl; intros d d' H E.
  - injection E as <-; exact H.
  - destruct (bind_param w) as [w'|]; [|discriminate]; cbn [bind] in E.
    destruct (bind_param p) as [p'|]; [|discriminate]; cbn [bind] in E.
    destruct (insert_entry w' p' x d) as [d1|] eqn:Ei; [|discriminate]; cbn [bind] in E.
    eapply IH; [eapply insert_entry_sync; eassumption | exact E].
Qed.

Lemma flush_sync self self' :
  fts_in_sync (conn self) -> flush self = Ok self' -> fts_in_sync (conn self').
Proof.
  unfold flush; intros H E; destruct (batch self) as [|e b].
  - injection E as <-; exact H.
  - unfold executemany in E; destruct (conn_open (conn self)); [|discriminate].
    destruct (insert_all (e :: b) (conn self)) as [d|] eqn:Ei; [|discriminate].
    cbn [bind] in E; injection E as <-; simpl; eapply insert_all_sync; eassumption.
Qed.

Lemma write_sync self o self' :
  fts_in_sync (conn self) -> write self o = Ok self' -> fts_in_sync (conn self').
Proof.
  unfold write; intros H E; destruct o; try discriminate; cbn zeta in E.
  destruct (Nat.leb _ _).
  - eapply flush_sync; [|exact E]; exact H.
  - injection E as <-; exact H.
Qed.

Lemma write_all_sync objs : forall self self',
  fts_in_sync (conn self) -> write_all self objs = Ok self' -> fts_in_sync (conn self').
Proof.
  induction objs as [|o objs IH]; simpl; intros self self' H E.
  - injection E as <-; exact H.
  - destruct (write self o) as [s1|] eqn:Ew; [|discriminate]; cbn [bind] in E.
    eapply IH; [eapply write_sync; eassumption | exact E].
Qed.

Lemma close_sync self self' :
  fts_in_sync (conn self) -> close self = Ok self' -> fts_in_sync (conn self').
Proof.
  unfold close; intros H E.
  destruct (flush self) as [s1|] eqn:Ef; [|discriminate]; cbn [bind] in E.
  injection E as <-; apply flush_sync in Ef; [|exact H].
  exact Ef.
Qed.

Lemma run_store_sync objs st : run_store objs = Ok st -> fts_in_sync (conn st).
Proof.
  unfold run_store; intro E.
  destruct (write_all SqliteOutput_init objs) as [s1|] eqn:Ew; [|discriminate]; cbn [bind] in E.
  eapply close_sync; [|exact E]; eapply write_all_sync; [|exact Ew].
  repeat split; constructor.
Qed.

Lemma fts_entries_for_absent id es :
  ~ In id (map row_id es) -> fts_entries_for id (map fts_row es) = [].
Proof.
  induction es as [|r es IH]; simpl; intro Hn; [reflexivity|].
  destruct (Z.eqb_spec (row_id r) id); [tauto | apply IH; tauto].
Qed.

Lemma fts_entries_for_row es r :
  NoDup (map row_id es) -> In r es -> fts_entries_for (row_id r) (map fts_row es) = [fts_row r].
Proof.
  induction es as [|r' es IH]; simpl; intros Hnd Hin; [contradiction|].
  inversion Hnd as [|? ? Hn Hnd']; subst.
  destruct Hin as [<-|Hin].
  - rewrite Z.eqb_refl, fts_entries_for_absent by exact Hn; reflexivity.
  - destruct (Z.eqb_spec (row_id r') (row_id r)) as [Heq|].
    + exfalso; apply Hn; rewrite Heq; apply in_map; exact Hin.
    + apply IH; assumption.
Qed.

(* ------------------------------------------------------------------ *)
(** ** Batching: counts and absence of errors *)

Lemma insert_all_length b : forall d d',
  insert_all b d = Ok d' ->
  List.length (entries d') = List.length (entries d) + List.length b /\
  conn_open d' = conn_open d.
Proof.
  induction b as [|[[w p] x] b IH]; simpl; intros d d' E.
  - injection E as <-; split; [lia | reflexivity].
  - destruct (bind_param w) as [w'|]; [|discriminate]; cbn [bind] in E.
    destruct (bind_param p) as [p'|]; [|discriminate]; cbn [bind] in E.
    destruct (insert_entry w' p' x d) as [d1|] eqn:Ei; [|discriminate]; cbn [bind] in E.
    apply IH in E as [E1 E2].
    unfold insert_entry in Ei; cbn zeta in Ei.
    destruct (text_affinity w'); [discriminate| |];
      injection Ei as <-; simpl in *; rewrite E1, E2, length_app; simpl; split; first [lia | reflexivity].
Qed.

Lemma insert_all_ok b : forall d,
  Forall (fun e => entry_storable e = true) b -> exists d', insert_all b d = Ok d'.
Proof.
  induction b as [|[[w p] x] b IH]; simpl; intros d Hb; [eauto|].
  inversion Hb as [|? ? He Hb']; subst; simpl in He.
  destruct (bind_param w) as [w'|]; [|discriminate].
  destruct (bind_param p) as [p'|]; [|destruct w'; discriminate].
  cbn [bind]; unfold insert_entry; cbn zeta.
  destruct w' as [|z|s0]; [discriminate| |]; simpl; apply IH; exact Hb'.
Qed.

Lemma flush_length self self' :
  flush self = Ok self' ->
  List.length (entries (conn self')) = List.length (entries (conn self)) + List.length (batch self) /\
  batch self' = [] /\ batch_size self' = batch_size self /\
  conn_open (conn self') = conn_open (conn self).
Proof.
  unfold flush; intro E; destruct (batch self) as [|e b] eqn:Hb.
  - injection E as <-; rewrite Hb; simpl; repeat split; lia.
  - unfold executemany in E; destruct (conn_open (conn self)) eqn:Ho; [|discriminate].
    destruct (insert_all (e :: b) (conn self)) as [d|] eqn:Ei; [|discriminate].
    cbn [bind] in E; injection E as <-; simpl.
    apply insert_all_length in Ei as [E1 E2]; rewrite E1, E2, Ho; simpl; repeat split; lia.
Qed.

Lemma flush_ok self :
  conn_open (conn self) = true ->
  Forall (fun e => entry_storable e = true) (batch self) ->
  exists self', flush self = Ok self'.
Proof.
  unfold flush; intros Ho Hb; destruct (batch self) as [|e b]; [eauto|].
  unfold executemany; rewrite Ho.
  destruct (insert_all_ok (e :: b) (conn self) Hb) as [d ->]; cbn [bind]; eauto.
Qed.

(** One [write] on a sink of capacity 100 whose batch is below capacity:
    either the entry is buffered and the batch stays below capacity, or the
    batch had 99 entries and the flush stored all 100. *)
Lemma write_step self o self' :
  write self o = Ok self' -> batch_size self = 100 -> List.length (batch self) < 100 ->
  batch_size self' = 100 /\ conn_open (conn self') = conn_open (conn self) /\
  ((List.length (batch self') = S (List.length (batch self)) /\
    List.length (batch self') < 100 /\ conn self' = conn self) \/
   (List.length (batch self) = 99 /\ batch self' = [] /\
    List.length (entries (conn self')) = List.length (entries (conn self)) + 100)).
Proof.
  unfold write; intros E Hs Hl; destruct o; try discriminate; cbn zeta in E.
  destruct (Nat.leb _ _) eqn:Hle.
  - apply Nat.leb_le in Hle; simpl in Hle; rewrite Hs, length_app in Hle; simpl in Hle.
    apply flush_length in E as (E1 & E2 & E3 & E4); simpl in E1, E3, E4.
    rewrite length_app in E1; simpl in E1.
    split; [rewrite E3; exact Hs|]. split; [exact E4|].
    right; split; [lia | split; [exact E2 | lia]].
  - apply Nat.leb_gt in Hle; simpl in Hle; rewrite Hs, length_app in Hle; simpl in Hle.
    injection E as <-; simpl; rewrite length_app; simpl.
    repeat split; [exact Hs | left; repeat split; lia].
Qed.

Lemma write_all_count objs : forall self st,
  write_all self objs = Ok st -> batch_size self = 100 -> List.length (batch self) < 100 ->
  batch_size st = 100 /\
  List.length (batch st) = (List.length (batch self) + List.length objs) mod 100 /\
  List.length (entries (conn st)) + List.length (batch st) =
    List.length (entries (conn self)) + List.length (batch self) + List.length objs.
Proof.
  induction objs as [|o objs IH]; cbn [write_all List.length]; intros self st E Hs Hl.
  - injection E as <-; rewrite Nat.add_0_r, Nat.mod_small by exact Hl; repeat split; [exact Hs | lia].
  - destruct (write self o) as [s1|] eqn:Ew; [|discriminate]; cbn [bind] in E.
    destruct (write_step self o s1 Ew Hs Hl) as (Hs1 & _ & [(Hb & Hb' & Hc)|(Hb & He & Hn)]).
    + destruct (IH s1 st E Hs1 Hb') as (I1 & I2 & I3).
      split; [exact I1 | split].
      * rewrite I2, Hb; f_equal; lia.
      * rewrite Hc in I3; lia.
    + destruct (IH s1 st E Hs1) as (I1 & I2 & I3); [rewrite He; cbn [List.length]; lia|].
      rewrite He in I2, I3; cbn [List.length Nat.add] in I2, I3.
      split; [exact I1 | split].
      * rewrite I2, Hb.
        replace (99 + S (List.length objs)) with (List.length objs + 1 * 100) by lia.
        rewrite Nat.Div0.mod_add; reflexivity.
      * lia.
Qed.

Lemma write_ok self o :
  conn_open (conn self) = true ->
  Forall (fun e => entry_storable e = true) (batch self) ->
  storable o = true -> batch_size self = 100 -> List.length (batch self) < 100 ->
  exists self', write self o = Ok self' /\ conn_open (conn self') = true /\
                Forall (fun e => entry_storable e = true) (batch self').
Proof.
  intros Ho Hb Hsto Hs Hl; destruct o as [| | | | |kvs]; try discriminate.
  assert (Hb' : Forall (fun e => entry_storable e = true)
                  (batch self ++ [entry_of kvs (JObj kvs)]))
    by (apply Forall_app; split; [exact Hb | constructor; [exact Hsto | constructor]]).
  unfold write; cbn zeta.
  destruct (Nat.leb _ _).
  - destruct (flush_ok (set_batch self (batch self ++ [entry_of kvs (JObj kvs)])) Ho Hb')
      as [s' Ef].
    exists s'; split; [exact Ef|].
    apply flush_length in Ef as (_ & E2 & _ & E4); rewrite E2, E4; split; [exact Ho | constructor].
  - eexists; split; [reflexivity | split; [exact Ho | exact Hb']].
Qed.

Lemma write_all_ok objs : forall self,
  conn_open (conn self) = true ->
  Forall (fun e => entry_storable e = true) (batch self) ->
  batch_size self = 100 -> List.length (batch self) < 100 ->
  Forall (fun o => storable o = true) objs ->
  exists st, write_all self objs = Ok st /\ conn_open (conn st) = true /\
             Forall (fun e => entry_storable e = true) (batch st).
Proof.
  induction objs as [|o objs IH]; intros self Ho Hb Hs Hl Hobjs; cbn [write_all].
  - eauto.
  - inversion Hobjs as [|? ? Hsto Hobjs']; subst.
    destruct (write_ok self o Ho Hb Hsto Hs Hl) as (s1 & Ew & Ho1 & Hb1).
    rewrite Ew; cbn [bind].
    destruct (write_step self o s1 Ew Hs Hl) as (Hs1 & _ & [(_ & Hl1 & _)|(_ & He & _)]);
      apply IH; try assumption; rewrite ?He; simpl; lia.
Qed.

Lemma close_length self st :
  close self = Ok st ->
  List.length (entries (conn st)) = List.length (entries (conn self)) + List.length (batch self) /\
  batch st = [] /\ conn_open (conn st) = false.
Proof.
  unfold close; intro E.
  destruct (flush self) as [s1|] eqn:Ef; [|discriminate]; cbn [bind] in E.
  injection E as <-; apply flush_length in Ef as (E1 & E2 & _).
  simpl; repeat split; assumption.
Qed.

Lemma close_ok self :
  conn_open (conn self) = true ->
  Forall (fun e => entry_storable e = true) (batch self) ->
  exists st, close self = Ok st.
Proof.
  intros Ho Hb; destruct (flush_ok self Ho Hb) as [s1 Ef].
  unfold close; rewrite Ef; cbn [bind]; eauto.
Qed.

Lemma projected_items_ext okv okv' s :
  (forall k, dict_lookup k okv' = dict_lookup k okv) ->
  projected_items okv' s = projected_items okv s.
Proof.
  intro Heq; induction s as [|[k sv] s IH]; simpl; [reflexivity|].
  rewrite Heq, IH; reflexivity.
Qed.

Lemma write_buffers self kvs :
  batch_size self = 100 -> List.length (batch self) < 99 ->
  write self (JObj kvs) = Ok (set_batch self (batch self ++ [entry_of kvs (JObj kvs)])).
Proof.
  intros Hs Hl; unfold write; cbn zeta.
  destruct (Nat.leb _ _) eqn:Hle; [|reflexivity].
  apply Nat.leb_le in Hle; simpl in Hle; rewrite Hs, length_app in Hle; simpl in Hle; lia.
Qed.

Lemma write_fills self kvs :
  batch_size self = 100 -> List.length (batch self) = 99 ->
  write self (JObj kvs) = flush (set_batch self (batch self ++ [entry_of kvs (JObj kvs)])).
Proof.
  intros Hs Hl; unfold write; cbn zeta.
  destruct (Nat.leb _ _) eqn:Hle; [reflexivity|].
  apply Nat.leb_gt in Hle; simpl in Hle; rewrite Hs, length_app in Hle; simpl in Hle; lia.
Qed.

(* ------------------------------------------------------------------ *)
(** ** The main loop *)

Section Driver.
Context {sink : Type} `{OutputHandler sink}.
Variable schema : json.

Definition project (o : json) : json := filter_by_schema o schema.

Lemma write_seq_app (h0 h : sink) xs ys :
  write_seq h0 (xs ++ ys) = Ok h <->
  exists h1, write_seq h0 xs = Ok h1 /\ write_seq h1 ys = Ok h.
Proof.
  revert h0; induction xs as [|x xs IH]; intro h0; simpl.
  - split; [eauto | intros (h1 & E & E'); injection E as <-; exact E'].
  - destruct (handler_write h0 x) as [h'|e]; cbn [bind]; [apply IH|].
    split; [discriminate | intros (h1 & E & _); discriminate].
Qed.

Lemma fr_records_snoc pre d :
  is_fr d = true -> fr_records (pre ++ [Decodes (JObj d)]) = fr_records pre ++ [JObj d].
Proof.
  intro Hd; induction pre as [|[[| | | | |d']|] pre IH]; simpl; try exact IH;
    [rewrite Hd; reflexivity|].
  destruct (is_fr d'); rewrite IH; reflexivity.
Qed.

(** A stretch of records that stays below the limit is processed without
    stopping: its French records are written in order. *)
Lemma process_prefix (n : Z) pre rest : forall ro oo (h0 h1 : sink),
  forallb line_is_dict pre = true ->
  (Z.of_nat (oo + List.length (fr_records pre)) < n)%Z ->
  write_seq h0 (map project (fr_records pre)) = Ok h1 ->
  process_lines (Some n) schema (pre ++ rest) ro oo h0 =
  process_lines (Some n) schema rest (ro + List.length pre) (oo + List.length (fr_records pre)) h1.
Proof.
  induction pre as [|l pre IH]; intros ro oo h0 h1 Hd Hn Hw.
  - simpl in Hw; injection Hw as <-; simpl; rewrite !Nat.add_0_r; reflexivity.
  - destruct l as [[| | | | |d]|]; try discriminate; simpl in Hd.
    cbn [app process_lines fr_records List.length] in *.
    destruct (is_fr d) eqn:Hfr; cbn [negb]; try rewrite Hfr in Hw; try rewrite Hfr in Hn.
    + cbn [map write_seq List.length] in Hw, Hn.
      destruct (handler_write h0 (project (JObj d))) as [h'|e] eqn:Ew; [|discriminate].
      cbn [bind] in Hw; unfold project in Ew; rewrite Ew; cbn [bind].
      replace (Z.geb (Z.of_nat (S oo)) n) with false by (symmetry; rewrite Z.geb_leb; apply Z.leb_gt; lia).
      rewrite (IH (S ro) (S oo) h' h1 Hd ltac:(lia) Hw).
      cbn [List.length]; f_equal; lia.
    + rewrite (IH (S ro) oo h0 h1 Hd Hn Hw); cbn [List.length]; f_equal; lia.
Qed.

(** The write that brings [lines_output] to the limit ends the loop. *)
Lemma process_cutoff (n : Z) pre d rest (h0 h : sink) :
  forallb line_is_dict pre = true -> is_fr d = true ->
  (Z.of_nat (List.length (fr_records pre)) < n)%Z ->
  (n <= Z.of_nat (S (List.length (fr_records pre))))%Z ->
  write_seq h0 (map project (fr_records (pre ++ [Decodes (JObj d)]))) = Ok h ->
  process_lines (Some n) schema (pre ++ Decodes (JObj d) :: rest) 0 0 h0 =
  Ok (S (List.length pre), S (List.length (fr_records pre)), h).
Proof.
  intros Hd Hfr Hlt Hle Hw.
  rewrite fr_records_snoc, map_app in Hw by exact Hfr.
  apply write_seq_app in Hw as (h1 & Hw1 & Hw2).
  rewrite (process_prefix n pre (Decodes (JObj d) :: rest) 0 0 h0 h1 Hd Hlt Hw1).
  cbn [map write_seq] in Hw2; unfold project in Hw2.
  destruct (handler_write h1 _) as [h'|e] eqn:Ew; [|discriminate]; cbn [bind] in Hw2.
  injection Hw2 as <-.
  cbn [process_lines]; rewrite Hfr; cbn [negb]; rewrite Ew; cbn [bind].
  replace (Z.geb _ n) with true by (symmetry; rewrite Z.geb_leb; apply Z.leb_le; lia).
  reflexivity.
Qed.

(** The stop test [lines_output >= n] is only reached after a write, where
    [lines_output] is at least 1. *)
Lemma process_limit_le_one (n : Z) lines : forall ro oo (h : sink),
  (n <= 1)%Z ->
  process_lines (Some n) schema lines ro oo h = process_lines (Some 1%Z) schema lines ro oo h.
Proof.
  induction lines as [|l lines IH]; intros ro oo h Hn; [reflexivity|].
  cbn [process_lines]; destruct l as [[| | | | |d]|]; try reflexivity.
  destruct (negb (is_fr d)); [apply IH; exact Hn|].
  destruct (handler_write h _) as [h'|e]; cbn [bind]; [|reflexivity].
  replace (Z.geb (Z.of_nat (S oo)) n) with true by (symmetry; rewrite Z.geb_leb; apply Z.leb_le; lia).
  replace (Z.geb (Z.of_nat (S oo)) 1) with true by (symmetry; rewrite Z.geb_leb; apply Z.leb_le; lia).
  reflexivity.
Qed.

End Driver.

(* ------------------------------------------------------------------ *)
(** ** File-system lemmas *)

Lemma append_suffix_neq (s t : string) : t <> EmptyString -> String.append s t <> s.
Proof.
  intros Ht; induction s as [|c s IH]; simpl; [exact Ht|].
  intro E; injection E as E; exact (IH E).
Qed.

Lemma fs_lookup_set_eq p b fs : fs_lookup p (fs_set p b fs) = Some b.
Proof.
  induction fs as [|[q c] fs IH]; simpl; [rewrite String.eqb_refl; reflexivity|].
  destruct (String.eqb_spec p q) as [->|]; simpl; [rewrite String.eqb_refl; reflexivity|].
  apply String.eqb_neq in n; rewrite n; exact IH.
Qed.

Lemma fs_lookup_set_neq p q b fs : p <> q -> fs_lookup p (fs_set q b fs) = fs_lookup p fs.
Proof.
  intro Hne; induction fs as [|[r c] fs IH]; simpl.
  - apply String.eqb_neq in Hne; rewrite Hne; reflexivity.
  - destruct (String.eqb_spec q r) as [->|]; simpl.
    + apply String.eqb_neq in Hne; rewrite Hne; reflexivity.
    + destruct (String.eqb p r); [reflexivity | exact IH].
Qed.

Lemma fs_lookup_remove_eq p fs : fs_lookup p (fs_remove p fs) = None.
Proof.
  induction fs as [|[q c] fs IH]; simpl; [reflexivity|].
  destruct (String.eqb_spec p q) as [->|Hne]; simpl; [exact IH|].
  apply String.eqb_neq in Hne; rewrite Hne; exact IH.
Qed.

Lemma fs_lookup_remove_neq p q fs : p <> q -> fs_lookup p (fs_remove q fs) = fs_lookup p fs.
Proof.
  intro Hne; induction fs as [|[r c] fs IH]; simpl; [reflexivity|].
  destruct (String.eqb_spec q r) as [->|]; simpl.
  - apply String.eqb_neq in Hne; rewrite Hne; exact IH.
  - destruct (String.eqb p r); [reflexivity | exact IH].
Qed.

(** Rewrite file lookups through the writes and removals of a run. *)
Ltac fs_simpl H :=
  repeat progress (rewrite ?fs_lookup_set_eq, ?fs_lookup_remove_eq;
                   rewrite ?fs_lookup_set_neq, ?fs_lookup_remove_neq by assumption;
                   rewrite ?H; cbn).

(* ------------------------------------------------------------------ *)
(** ** Induction over JSON values and idempotence of the projection *)

Section JsonInd.
Variable P : json -> Prop.
Hypothesis P_null : P JNull.
Hypothesis P_bool : forall b, P (JBool b).
Hypothesis P_num : forall z, P (JNum z).
Hypothesis P_str : forall s, P (JStr s).
Hypothesis P_arr : forall xs, Forall P xs -> P (JArr xs).
Hypothesis P_obj : forall kvs, Forall (fun kv => P (snd kv)) kvs -> P (JObj kvs).

Fixpoint json_ind_nested (j : json) : P j :=
  match j with
  | JNull => P_null
  | JBool b => P_bool b
  | JNum z => P_num z
  | JStr s => P_str s
  | JArr xs =>
      P_arr xs ((fix go (l : list json) : Forall P l :=
                   match l with
                   | [] => Forall_nil _
                   | x :: l' => Forall_cons _ (json_ind_nested x) (go l')
                   end) xs)
  | JObj kvs =>
      P_obj kvs ((fix go (l : dict) : Forall (fun kv => P (snd kv)) l :=
                    match l with
                    | [] => Forall_nil _
                    | kv :: l' => Forall_cons _ (json_ind_nested (snd kv)) (go l')
                    end) kvs)
  end.
End JsonInd.

Lemma nodup_keys_spec d : nodup_keys d = true -> NoDup (keys d).
Proof.
  induction d as [|[k v] d IH]; simpl; [constructor|].
  rewrite andb_true_iff, negb_true_iff; intros [Hn Hd]; constructor; [|auto].
  intro Hin; assert (existsb (String.eqb k) (keys d) = true) by
    (apply existsb_exists; exists k; rewrite String.eqb_refl; auto); congruence.
Qed.

Lemma schema_wf_obj kvs :
  schema_wf (JObj kvs) = true ->
  NoDup (keys kvs) /\ forall k sv, In (k, sv) kvs -> schema_wf sv = true.
Proof.
  simpl; rewrite andb_true_iff; intros [Hn Hall]; split; [apply nodup_keys_spec; exact Hn|].
  clear Hn; induction kvs as [|[k' v] kvs IH]; simpl; [tauto|].
  rewrite andb_true_iff in Hall; destruct Hall as [Hv Hall].
  intros k sv [E|Hin]; [injection E as <- <-; exact Hv | exact (IH Hall k sv Hin)].
Qed.

Lemma lookup_projected_items_some okv skv k sv :
  NoDup (keys skv) -> In (k, sv) skv ->
  dict_lookup k (projected_items okv skv) =
  match dict_lookup k okv with Some ov => Some (filter_by_schema ov sv) | None => None end.
Proof.
  intros Hnd Hin.
  pose proof (dict_lookup_nodup k sv skv Hnd Hin) as Hsv.
  destruct (dict_lookup k okv) as [ov|] eqn:Hov.
  - apply lookup_projected_items; [exact Hnd|]; eauto.
  - destruct (dict_lookup k (projected_items okv skv)) as [v|] eqn:Hv; [|reflexivity].
    apply lookup_projected_items in Hv as (ov & sv' & Hov' & _); [congruence | exact Hnd].
Qed.

Lemma projected_items_pointwise o1 o2 skv :
  (forall k sv, In (k, sv) skv ->
     match dict_lookup k o1 with Some v1 => [(k, filter_by_schema v1 sv)] | None => [] end =
     match dict_lookup k o2 with Some v2 => [(k, filter_by_schema v2 sv)] | None => [] end) ->
  projected_items o1 skv = projected_items o2 skv.
Proof.
  induction skv as [|[k sv] skv IH]; simpl; intro H; [reflexivity|].
  rewrite (H k sv (or_introl eq_refl)), IH; [reflexivity|].
  intros; apply H; auto.
Qed.

(* ------------------------------------------------------------------ *)
(** ** The rows stored by a run *)

Lemma expected_rows_app id a b :
  List.length (expected_rows id a) = List.length a ->
  expected_rows id (a ++ b) = expected_rows id a ++ expected_rows (id + Z.of_nat (List.length a)) b.
Proof.
  revert id; induction a as [|e a IH]; intros id Hl; simpl in *.
  - rewrite Z.add_0_r; reflexivity.
  - destruct (expected_row id e) as [r|]; [|discriminate].
    simpl in Hl; injection Hl as Hl; rewrite IH by exact Hl; simpl.
    do 3 f_equal; lia.
Qed.

Lemma expected_row_storable id e r : expected_row id e = Some r -> entry_storable e = true.
Proof.
  destruct e as [[w p] x]; simpl.
  destruct (bind_param w) as [w'|]; [|discriminate].
  destruct (bind_param p) as [p'|]; [|destruct w'; discriminate].
  destruct w' as [|z|s0]; simpl; [discriminate | reflexivity | reflexivity].
Qed.

Lemma expected_rows_storable id es :
  List.length (expected_rows id es) = List.length es ->
  Forall (fun e => entry_storable e = true) es.
Proof.
  revert id; induction es as [|e es IH]; intros id Hl; [constructor|].
  simpl in Hl; destruct (expected_row id e) as [r|] eqn:Er; [|discriminate].
  injection Hl as Hl; constructor; [eapply expected_row_storable; exact Er | exact (IH _ Hl)].
Qed.

Lemma stored_rows_dicts id ds :
  stored_rows id (map JObj ds) = expected_rows id (map dict_entry ds).
Proof.
  revert id; induction ds as [|d ds IH]; intro id; cbn [map stored_rows expected_rows]; [reflexivity|].
  unfold dict_entry; destruct (expected_row id (entry_of d (JObj d))); [rewrite IH|]; reflexivity.
Qed.

Lemma insert_all_rows b : forall d d',
  insert_all b d = Ok d' ->
  entries d' = entries d ++ expected_rows (entries_seq d + 1) b /\
  List.length (expected_rows (entries_seq d + 1) b) = List.length b /\
  entries_seq d' = (entries_seq d + Z.of_nat (List.length b))%Z.
Proof.
  induction b as [|[[w p] x] b IH]; intros d d' E; cbn [insert_all] in E.
  - injection E as <-; cbn [expected_rows List.length]; rewrite app_nil_r, Z.add_0_r; auto.
  - cbn [expected_rows expected_row].
    destruct (bind_param w) as [w'|] eqn:Hw; [|discriminate]; cbn [bind] in E.
    destruct (bind_param p) as [p'|] eqn:Hp; [|discriminate]; cbn [bind] in E.
    destruct (insert_entry w' p' x d) as [d1|] eqn:Ei; [|discriminate]; cbn [bind] in E.
    apply IH in E as (E1 & E2 & E3).
    unfold insert_entry in Ei; cbn zeta in Ei.
    destruct (text_affinity w') eqn:Ht; [discriminate| |];
      injection Ei as <-; cbn [entries entries_seq] in E1, E2, E3;
      cbn [List.length];
      (split; [rewrite E1, <- app_assoc; reflexivity | split; [rewrite E2; reflexivity | rewrite E3; lia]]).
Qed.

Lemma flush_rows self self' :
  flush self = Ok self' ->
  entries (conn self') = entries (conn self) ++ expected_rows (entries_seq (conn self) + 1) (batch self) /\
  List.length (expected_rows (entries_seq (conn self) + 1) (batch self)) = List.length (batch self) /\
  entries_seq (conn self') = (entries_seq (conn self) + Z.of_nat (List.length (batch self)))%Z /\
  batch self' = [] /\ batch_size self' = batch_size self.
Proof.
  unfold flush; intro E; destruct (batch self) as [|e b] eqn:Hb.
  - injection E as <-; rewrite Hb; simpl; rewrite app_nil_r, Z.add_0_r; auto.
  - unfold executemany in E; destruct (conn_open (conn self)); [|discriminate].
    destruct (insert_all (e :: b) (conn self)) as [d|] eqn:Ei; [|discriminate].
    cbn [bind] in E; injection E as <-; simpl.
    apply insert_all_rows in Ei as (E1 & E2 & E3); auto.
Qed.

(** What a sequence of writes leaves: the entries of the records, in
    order, split into a flushed part (stored as rows) and the batch. *)
Lemma write_all_rows objs : forall self st,
  write_all self objs = Ok st ->
  exists ds flushed,
    objs = map JObj ds /\
    batch self ++ map dict_entry ds = flushed ++ batch st /\
    entries (conn st) = entries (conn self) ++ expected_rows (entries_seq (conn self) + 1) flushed /\
    List.length (expected_rows (entries_seq (conn self) + 1) flushed) = List.length flushed /\
    entries_seq (conn st) = (entries_seq (conn self) + Z.of_nat (List.length flushed))%Z.
Proof.
  induction objs as [|o objs IH]; cbn [write_all]; intros self st E.
  - injection E as <-; exists [], []; rewrite !app_nil_r, Z.add_0_r; auto.
  - destruct (write self o) as [s1|] eqn:Ew; [|discriminate]; cbn [bind] in E.
    destruct o as [| | | | |d]; try discriminate.
    destruct (IH s1 st E) as (ds & fl & -> & B & R & L & S).
    unfold write in Ew; cbn zeta in Ew.
    destruct (Nat.leb _ _).
    + change (flush (set_batch self (batch self ++ [dict_entry d])) = Ok s1) in Ew.
      apply flush_rows in Ew as (F1 & F2 & F3 & F4 & _); cbn [conn batch set_batch] in F1, F2, F3, F4.
      exists (d :: ds), ((batch self ++ [dict_entry d]) ++ fl).
      split; [reflexivity|].
      rewrite F4 in B; simpl in B; split.
      { cbn [map]; rewrite B, <- !app_assoc; reflexivity. }
      remember (batch self ++ [dict_entry d]) as bb eqn:Hbb; clear Hbb.
      rewrite F1, F3 in R; rewrite F3 in L, S.
      rewrite expected_rows_app, length_app by exact F2.
      replace (entries_seq (conn self) + 1 + Z.of_nat (List.length bb))%Z
        with (entries_seq (conn self) + Z.of_nat (List.length bb) + 1)%Z by lia.
      split; [rewrite R, <- app_assoc; reflexivity|].
      split; [rewrite length_app, F2, L; reflexivity | rewrite S, length_app; lia].
    + injection Ew as <-; cbn [conn batch set_batch] in B, R, L, S.
      exists (d :: ds), fl; split; [reflexivity|].
      split; [cbn [map]; rewrite <- B, <- app_assoc; reflexivity | auto].
Qed.

(** A completed run: every record was a dict and each became one row, in
    order, with ids 1, 2, ... *)
Lemma run_store_rows objs st :
  run_store objs = Ok st ->
  exists ds, objs = map JObj ds /\
    entries (conn st) = expected_rows 1 (map dict_entry ds) /\
    List.length (expected_rows 1 (map dict_entry ds)) = List.length ds /\
    entries_seq (conn st) = Z.of_nat (List.length ds).
Proof.
  unfold run_store; intro E.
  destruct (write_all SqliteOutput_init objs) as [s1|] eqn:Ew; [|discriminate]; cbn [bind] in E.
  destruct (write_all_rows objs SqliteOutput_init s1 Ew) as (ds & fl & -> & B & R & L & S).
  cbn [batch conn SqliteOutput_init init_sqlite_db entries entries_seq app] in B, R, L, S.
  unfold close in E; destruct (flush s1) as [s2|] eqn:Ef; [|discriminate]; cbn [bind] in E.
  injection E as <-; apply flush_rows in Ef as (F1 & F2 & F3 & _).
  exists ds; split; [reflexivity|]; cbn [conn set_conn entries entries_seq].
  rewrite S in F1, F2, F3; rewrite R in F1; cbn [app Z.add] in *.
  replace (Z.of_nat (List.length fl) + 1)%Z with (1 + Z.of_nat (List.length fl))%Z in F1, F2 by lia.
  assert (Hl : List.length ds = List.length fl + List.length (batch s1))
    by (rewrite <- length_app, <- B, length_map; reflexivity).
  rewrite B, expected_rows_app by exact L.
  split; [exact F1|].
  split; [rewrite length_app, L, F2; lia | rewrite F3, Hl; lia].
Qed.

(* ------------------------------------------------------------------ *)
(** ** The main loop without a limit *)

Section DriverNoLimit.
Context {sink : Type} `{OutputHandler sink}.
Variable schema : json.

(** Without a limit, a stretch of dict lines is read through and its French
    records are written in order. *)
Lemma process_none_prefix pre rest : forall ro oo (h0 h1 : sink),
  forallb line_is_dict pre = true ->
  write_seq h0 (map (project schema) (fr_records pre)) = Ok h1 ->
  process_lines None schema (pre ++ rest) ro oo h0 =
  process_lines None schema rest (ro + List.length pre) (oo + List.length (fr_records pre)) h1.
Proof.
  induction pre as [|l pre IH]; intros ro oo h0 h1 Hd Hw.
  - simpl in Hw; injection Hw as <-; simpl; rewrite !Nat.add_0_r; reflexivity.
  - destruct l as [[| | | | |d]|]; try discriminate; simpl in Hd.
    cbn [app process_lines fr_records List.length] in *.
    destruct (is_fr d) eqn:Hfr; cbn [negb]; try rewrite Hfr in Hw.
    + cbn [map write_seq List.length] in Hw.
      destruct (handler_write h0 (project schema (JObj d))) as [h'|e] eqn:Ew; [|discriminate].
      cbn [bind] in Hw; unfold project in Ew; rewrite Ew; cbn [bind].
      rewrite (IH (S ro) (S oo) h' h1 Hd Hw); cbn [List.length]; f_equal; lia.
    + rewrite (IH (S ro) oo h0 h1 Hd Hw); cbn [List.length]; f_equal; lia.
Qed.

Lemma process_below_prefix (n : option Z) pre rest ro oo (h0 h1 : sink) :
  forallb line_is_dict pre = true ->
  below_limit n (oo + List.length (fr_records pre)) ->
  write_seq h0 (map (project schema) (fr_records pre)) = Ok h1 ->
  process_lines n schema (pre ++ rest) ro oo h0 =
  process_lines n schema rest (ro + List.length pre) (oo + List.length (fr_records pre)) h1.
Proof.
  destruct n as [n|]; simpl; intros Hd Hb Hw.
  - apply process_prefix; assumption.
  - apply process_none_prefix; assumption.
Qed.

End DriverNoLimit.

Lemma jsonl_write_seq (out : list json) (sc : bool) objs :
  write_seq (mkJsonlOutput out sc) objs = Ok (mkJsonlOutput (out ++ objs) sc).
Proof.
  revert out; induction objs as [|o objs IH]; intro out; simpl.
  - rewrite app_nil_r; reflexivity.
  - rewrite IH, <- app_assoc; reflexivity.
Qed.

(* ------------------------------------------------------------------ *)
(** ** main's try/finally *)

Section MainLoop.
Context {sink : Type} `{OutputHandler sink}.
Variable schema : json.

(** [main_loop] refines [process_lines]: same counters, handler and
    exception. *)
Lemma main_loop_process (n : option Z) lines : forall ro oo (h : sink),
  process_lines n schema lines ro oo h =
  match main_loop n schema lines ro oo h with
  | Ok (h', Ok (r, o)) => Ok (r, o, h')
  | Ok (_, Err e) => Err e
  | Err e => Err e
  end.
Proof.
  induction lines as [|l lines IH]; intros ro oo h; [reflexivity|].
  cbn [process_lines main_loop]; destruct l as [[| | | | |d]|]; try reflexivity.
  destruct (negb (is_fr d)); [apply IH|].
  destruct (handler_write h _) as [h'|e]; cbn [bind]; [|reflexivity].
  destruct n as [n'|]; [destruct (Z.geb _ n'); [reflexivity|]|]; apply IH.
Qed.

Lemma main_loop_prefix (n : option Z) pre rest ro oo (h0 h1 : sink) :
  forallb line_is_dict pre = true ->
  below_limit n (oo + List.length (fr_records pre)) ->
  write_seq h0 (map (project schema) (fr_records pre)) = Ok h1 ->
  main_loop n schema (pre ++ rest) ro oo h0 =
  main_loop n schema rest (ro + List.length pre) (oo + List.length (fr_records pre)) h1.
Proof.
  revert ro oo h0 h1; induction pre as [|l pre IH]; intros ro oo h0 h1 Hd Hb Hw.
  - simpl in Hw; injection Hw as <-; simpl; rewrite !Nat.add_0_r; reflexivity.
  - destruct l as [[| | | | |d]|]; try discriminate; simpl in Hd.
    cbn [app main_loop fr_records List.length] in *.
    destruct (is_fr d) eqn:Hfr; cbn [negb]; try rewrite Hfr in Hw; try rewrite Hfr in Hb.
    + cbn [map write_seq List.length] in Hw, Hb.
      destruct (handler_write h0 (project schema (JObj d))) as [h'|e] eqn:Ew; [|discriminate].
      cbn [bind] in Hw; unfold project in Ew; rewrite Ew; cbn [bind].
      destruct n as [n'|]; simpl in Hb.
      * replace (Z.geb (Z.of_nat (S oo)) n') with false
          by (symmetry; rewrite Z.geb_leb; apply Z.leb_gt; lia).
        rewrite (IH (S ro) (S oo) h' h1 Hd ltac:(simpl; lia) Hw); cbn [List.length]; f_equal; lia.
      * rewrite (IH (S ro) (S oo) h' h1 Hd I Hw); cbn [List.length]; f_equal; lia.
    + rewrite (IH (S ro) oo h0 h1 Hd Hb Hw); cbn [List.length]; f_equal; lia.
Qed.

End MainLoop.

Lemma sqlite_write_seq (self : SqliteOutput) objs : write_seq self objs = write_all self objs.
Proof.
  revert self; induction objs as [|o objs IH]; intro self; simpl; [reflexivity|].
  destruct (write self o); cbn [bind]; [apply IH | reflexivity].
Qed.

(* ------------------------------------------------------------------ *)
(** ** Sizes under projection *)

Lemma json_size_arr xs : json_size (JArr xs) = S (list_sum (map json_size xs)).
Proof.
  induction xs as [|x xs IH]; [reflexivity|].
  cbn [json_size] in *; injection IH as IH; rewrite IH; reflexivity.
Qed.

Lemma json_size_obj kvs :
  json_size (JObj kvs) = S (list_sum (map (fun kv => S (json_size (snd kv))) kvs)).
Proof.
  induction kvs as [|[k v] kvs IH]; [reflexivity|].
  simpl in *; lia.
Qed.

Lemma list_sum_map_le {A} (f g : A -> nat) l :
  (forall x, In x l -> f x <= g x) -> list_sum (map f l) <= list_sum (map g l).
Proof.
  induction l as [|x l IH]; simpl; intro H; [lia|].
  pose proof (H x (or_introl eq_refl)); specialize (IH (fun y Hy => H y (or_intror Hy))).
  lia.
Qed.

(** The size a key's first binding in [okv] contributes. *)
Definition lookup_size (okv : dict) (k : string) : nat :=
  match dict_lookup k okv with Some v => S (json_size v) | None => 0 end.

Lemma lookup_size_absent k0 v0 okv ks :
  ~ In k0 ks ->
  list_sum (map (lookup_size ((k0, v0) :: okv)) ks) =
  list_sum (map (lookup_size okv) (filter (fun k => negb (String.eqb k k0)) ks)).
Proof.
  induction ks as [|k ks IH]; simpl; intro Hn; [reflexivity|].
  unfold lookup_size at 1; cbn [dict_lookup].
  destruct (String.eqb_spec k k0) as [->|Hne]; [tauto|]; simpl.
  rewrite IH by tauto; reflexivity.
Qed.

Lemma lookup_size_cons k0 v0 okv ks :
  NoDup ks ->
  list_sum (map (lookup_size ((k0, v0) :: okv)) ks) <=
  S (json_size v0) + list_sum (map (lookup_size okv) (filter (fun k => negb (String.eqb k k0)) ks)).
Proof.
  induction ks as [|k ks IH]; simpl; intro Hnd; [lia|].
  inversion Hnd as [|? ? Hn Hnd']; subst.
  unfold lookup_size at 1; cbn [dict_lookup].
  destruct (String.eqb_spec k k0) as [->|Hne]; simpl.
  - rewrite lookup_size_absent by exact Hn; lia.
  - specialize (IH Hnd'); fold (lookup_size okv k); lia.
Qed.

Lemma lookup_size_le okv : forall ks,
  NoDup ks ->
  list_sum (map (lookup_size okv) ks) <= list_sum (map (fun kv => S (json_size (snd kv))) okv).
Proof.
  induction okv as [|[k0 v0] okv IH]; intros ks Hnd.
  - induction ks as [|k ks IHk]; simpl; [lia|].
    inversion Hnd; subst; unfold lookup_size at 1; simpl; apply IHk; assumption.
  - eapply Nat.le_trans; [apply lookup_size_cons; exact Hnd|]; simpl.
    pose proof (IH _ (NoDup_filter (fun k => negb (String.eqb k k0)) Hnd)); lia.
Qed.

Lemma projected_items_size okv skv :
  list_sum (map (fun kv => S (json_size (snd kv))) (projected_items okv skv)) =
  list_sum (map (fun '(k, sv) => match dict_lookup k okv with
                                  | Some ov => S (json_size (filter_by_schema ov sv))
                                  | None => 0 end) skv).
Proof.
  induction skv as [|[k sv] skv IH]; [reflexivity|].
  unfold projected_items in *; cbn [flat_map map list_sum fold_right] in *.
  rewrite map_app, list_sum_app, IH.
  destruct (dict_lookup k okv); unfold list_sum; cbn; lia.
Qed.

(* ------------------------------------------------------------------ *)
(** ** The [\bnumber\b] pass *)

Lemma sub_number_fuel : forall f1 f2 pw s,
  List.length s <= f1 -> List.length s <= f2 ->
  sub_number f1 pw s = sub_number f2 pw s.
Proof.
  induction f1 as [|f1 IH]; intros f2 pw s H1 H2.
  - destruct s; [destruct f2; reflexivity | cbn in H1; lia].
  - destruct f2 as [|f2]; [destruct s; [reflexivity | cbn in H2; lia]|].
    destruct s as [|c s]; [reflexivity|].
    cbn [sub_number].
    destruct (negb pw && starts_with number_word (c :: s)
              && next_not_word (skipn 6 (c :: s))).
    + f_equal. apply IH; rewrite length_skipn; cbn in *; lia.
    + f_equal. apply IH; cbn in *; lia.
Qed.

Lemma starts_with_length : forall p s,
  starts_with p s = true -> List.length p <= List.length s.
Proof.
  induction p as [|c p IH]; intros [|d s] H; cbn in *; try lia; try discriminate.
  apply andb_prop in H as [_ H]. apply IH in H. lia.
Qed.

Lemma starts_with_app_short : forall p a c b,
  List.length a < List.length p ->
  starts_with p (a ++ c :: b) = true -> In c p.
Proof.
  induction p as [|x p IH]; intros a c b Hl H; cbn in Hl; [lia|].
  destruct a as [|y a]; cbn in H; apply andb_prop in H as [Hx H].
  - apply Ascii.eqb_eq in Hx. subst. left. reflexivity.
  - right. apply (IH a c b); [cbn in Hl; lia | exact H].
Qed.

Lemma starts_with_app_long : forall p a t,
  List.length p <= List.length a ->
  starts_with p (a ++ t) = starts_with p a.
Proof.
  induction p as [|x p IH]; intros [|y a] t Hl; cbn in *; try lia; try reflexivity.
  rewrite IH by lia. reflexivity.
Qed.

Lemma starts_with_firstn : forall p s,
  starts_with p s = true -> firstn (List.length p) s = p.
Proof.
  induction p as [|x p IH]; intros [|y s] H; cbn in *; try reflexivity; try discriminate.
  apply andb_prop in H as [Hx H]. apply Ascii.eqb_eq in Hx. subst.
  rewrite IH by exact H. reflexivity.
Qed.

Lemma number_word_all_word : forall c, In c number_word -> is_word c = true.
Proof.
  intros c H. cbn in H.
  repeat (destruct H as [<- | H]; [reflexivity|]). destruct H.
Qed.

Lemma last_word_app : forall pw a t,
  last_word pw (a ++ t) = last_word (last_word pw a) t.
Proof. intros pw a; revert pw; induction a; intros; cbn; auto. Qed.

(** A non-word character cuts the pass: no match runs across it and
    [\b] sees the same on both sides of it. *)
Lemma sub_number_cut : forall fuel pw a c b,
  List.length (a ++ c :: b) <= fuel -> is_word c = false ->
  sub_number fuel pw (a ++ c :: b) =
  sub_number (List.length a) pw a ++
  sub_number (List.length (c :: b)) (last_word pw a) (c :: b).
Proof.
  induction fuel as [|fuel IH]; intros pw a c b Hf Hc.
  - rewrite length_app in Hf; cbn in Hf; lia.
  - destruct a as [|x a].
    + change ([] ++ c :: b) with (c :: b) in *.
      change (sub_number (List.length []) pw []) with (@nil ascii).
      change (last_word pw []) with pw. change ([] ++ ?t) with t.
      apply sub_number_fuel; [exact Hf | lia].
    + cbn [app List.length sub_number].
      assert (Hcond : starts_with number_word (x :: a ++ c :: b)
                        && next_not_word (skipn 6 (x :: a ++ c :: b))
                      = starts_with number_word (x :: a)
                        && next_not_word (skipn 6 (x :: a))).
      { destruct (Nat.lt_ge_cases (List.length (x :: a)) 6) as [Hs | Hs].
        - destruct (starts_with number_word (x :: a ++ c :: b)) eqn:E.
          + exfalso. change (x :: a ++ c :: b) with ((x :: a) ++ c :: b) in E.
            apply starts_with_app_short in E; [|exact Hs].
            apply number_word_all_word in E. congruence.
          + destruct (starts_with number_word (x :: a)) eqn:E2; [|reflexivity].
            apply starts_with_length in E2. cbn in E2, Hs. lia.
        - change (x :: a ++ c :: b) with ((x :: a) ++ c :: b).
          rewrite starts_with_app_long by exact Hs.
          rewrite skipn_app.
          replace (6 - List.length (x :: a)) with 0 by lia.
          change (skipn 0 (c :: b)) with (c :: b).
          destruct (skipn 6 (x :: a)) eqn:Ek; [|reflexivity].
          cbn [app next_not_word]. rewrite Hc. reflexivity. }
      rewrite <- !andb_assoc, Hcond, !andb_assoc.
      destruct (negb pw && starts_with number_word (x :: a)
                && next_not_word (skipn 6 (x :: a))) eqn:Em.
      * apply andb_prop in Em as [Em _]. apply andb_prop in Em as [_ Es].
        assert (Hl6 := starts_with_length _ _ Es).
        change (List.length number_word) with 6 in Hl6.
        change (x :: a ++ c :: b) with ((x :: a) ++ c :: b).
        rewrite skipn_app. replace (6 - List.length (x :: a)) with 0 by lia.
        change (skipn 0 (c :: b)) with (c :: b). rewrite IH.
        2: { rewrite length_app, length_skipn. rewrite length_app in Hf.
             cbn in Hf |- *. lia. }
        2: exact Hc.
        cbn [app]. f_equal. f_equal.
        -- apply sub_number_fuel; rewrite length_skipn; cbn; lia.
        -- f_equal.
           rewrite <- (firstn_skipn 6 (x :: a)) at 2.
           rewrite last_word_app.
           apply starts_with_firstn in Es.
           change (List.length number_word) with 6 in Es. rewrite Es.
           reflexivity.
      * cbn [app]. f_equal. rewrite IH.
        2: { rewrite length_app in *. cbn in *. lia. }
        2: exact Hc.
        now f_equal.
Qed.

Lemma sub_number_quote : forall fuel pw b,
  List.length b < fuel ->
  sub_number fuel pw (dquote :: b)%char = (dquote :: replace_number b)%char.
Proof.
  intros [|fuel] pw b Hf; [lia|].
  cbn [sub_number]. rewrite andb_false_r, andb_false_l.
  change (is_word dquote%char) with false. f_equal.
  apply sub_number_fuel; lia.
Qed.

Lemma sub_number_word : forall fuel b,
  List.length b < fuel ->
  sub_number (S fuel) false (number_word ++ dquote :: b)%char =
  ("0" :: dquote :: replace_number b)%char.
Proof.
  intros fuel b Hf.
  cbn [sub_number number_word list_ascii_of_string app].
  match goal with |- (if ?c then _ else _) = _ => replace c with true by reflexivity end.
  cbn [skipn]. f_equal. apply sub_number_quote. lia.
Qed.

(* ------------------------------------------------------------------ *)
(** ** The steps of main around its loop *)

Lemma schema_keys_check_ok (schema : json) :
  (py_truthy schema = false \/ exists kvs, schema = JObj kvs) ->
  schema_keys_check schema = Ok tt.
Proof.
  unfold schema_keys_check; intros [Hf | [kvs ->]]; [rewrite Hf; reflexivity|].
  destruct (py_truthy (JObj kvs)); reflexivity.
Qed.

Lemma compress_step_ok (compress : option (result string)) :
  (forall e, compress <> Some (Err e)) ->
  exists p, match compress with Some r => r | None => Ok "" end = Ok p.
Proof.
  intros Hc; destruct compress as [[p|e]|]; eauto.
  exfalso; exact (Hc e eq_refl).
Qed.

(* ------------------------------------------------------------------ *)
(** ** The trailing-comma pass *)

Lemma py_space_not_comma c : py_space c = true -> not_comma c = true.
Proof.
  intro H; unfold not_comma; destruct (Ascii.eqb_spec c ","%char) as [->|]; [discriminate | reflexivity].
Qed.

Lemma match_close_spec s g rest :
  match_close s = Some (g, rest) -> s = g ++ rest /\ forallb not_comma g = true.
Proof.
  revert g; induction s as [|c s IH]; intros g E; cbn [match_close] in E; [discriminate|].
  destruct (py_space c) eqn:Hs.
  - destruct (match_close s) as [[g' r']|] eqn:Em; [|discriminate].
    injection E as <- <-; destruct (IH g' eq_refl) as [-> Hg]; split; [reflexivity|].
    cbn; rewrite py_space_not_comma by exact Hs; exact Hg.
  - destruct (Ascii.eqb c "}"%char) eqn:E1, (Ascii.eqb c "]"%char) eqn:E2; cbn in E; try discriminate;
      injection E as <- <-; split; try reflexivity; cbn;
      [apply Ascii.eqb_eq in E1 | apply Ascii.eqb_eq in E1 | apply Ascii.eqb_eq in E2]; subst; reflexivity.
Qed.

Lemma drop_commas_app g rest :
  forallb not_comma g = true ->
  drop_commas_before_close (g ++ rest) = g ++ drop_commas_before_close rest.
Proof.
  induction g as [|c g IH]; cbn; intro H; [reflexivity|].
  apply andb_prop in H as [Hc Hg]; unfold not_comma in Hc; apply negb_true_iff in Hc.
  rewrite Hc; cbn; rewrite IH by exact Hg; reflexivity.
Qed.

Lemma sub_trailing_commas_drop fuel : forall s,
  List.length s <= fuel -> sub_trailing_commas fuel s = drop_commas_before_close s.
Proof.
  induction fuel as [|fuel IH]; intros s Hl.
  - destruct s; [reflexivity | simpl in Hl; lia].
  - destruct s as [|c s]; [reflexivity|]; cbn [List.length] in Hl.
    cbn [sub_trailing_commas drop_commas_before_close].
    destruct (Ascii.eqb c ","%char); cbn [andb].
    + destruct (match_close s) as [[g rest]|] eqn:Em.
      * destruct (match_close_spec s g rest Em) as [-> Hg].
        rewrite IH by (rewrite length_app in Hl; lia).
        rewrite drop_commas_app by exact Hg; reflexivity.
      * rewrite IH by lia; reflexivity.
    + rewrite IH by lia; reflexivity.
Qed.

Lemma match_close_spaces w b :
  forallb py_space w = true -> (b = "}"%char \/ b = "]"%char) ->
  match_close (w ++ [b]) = Some (w ++ [b], []).
Proof.
  intros Hw Hb; induction w as [|c w IH]; cbn in *.
  - destruct Hb as [->| ->]; reflexivity.
  - apply andb_prop in Hw as [Hc Hw]; rewrite Hc, IH by exact Hw; reflexivity.
Qed.

Lemma forallb_spaces_not_comma w : forallb py_space w = true -> forallb not_comma w = true.
Proof.
  induction w as [|c w IH]; cbn; intro H; [reflexivity|].
  apply andb_prop in H as [Hc Hw]; rewrite py_space_not_comma, IH by assumption; reflexivity.
Qed.

(* ================================================================== *)
(** * Claims *)

(** C1.  Index consistency: after any sequence of [write] calls followed by
    [close] (the run completing), every row of [entries] has exactly one
    entry in [entries_fts] and exactly one in [entries_fts_trigram] under its
    id, holding its word; and every entry of either FTS5 table belongs to a
    row of [entries] with that id and word. *)
Theorem store_sink_fts_consistent (objs : list json) (st : SqliteOutput) :
  run_store objs = Ok st ->
  (forall r, In r (entries (conn st)) ->
     fts_entries_for (row_id r) (entries_fts (conn st)) = [(row_id r, row_word r)] /\
     fts_entries_for (row_id r) (entries_fts_trigram (conn st)) = [(row_id r, row_word r)]) /\
  (forall id w, In (id, w) (entries_fts (conn st)) \/ In (id, w) (entries_fts_trigram (conn st)) ->
     exists r, In r (entries (conn st)) /\ row_id r = id /\ row_word r = w).
Proof.
  intro E; destruct (run_store_sync objs st E) as (H1 & H2 & H3 & _).
  rewrite H1, H2; split.
  - intros r Hin; rewrite fts_entries_for_row by assumption; split; reflexivity.
  - intros id w Hin; assert (Hin' : In (id, w) (map fts_row (entries (conn st)))) by tauto.
    apply in_map_iff in Hin' as (r & Hr & Hin'); unfold fts_row in Hr; injection Hr as <- <-.
    exists r; auto.
Qed.

Lemma store_sink_fts_consistent_witness :
  exists st,
    run_store [JObj [("word", JStr "chat")]; JObj [("word", JNum 7); ("pos", JStr "noun")]] = Ok st /\
    (forall r, In r (entries (conn st)) ->
       fts_entries_for (row_id r) (entries_fts (conn st)) = [(row_id r, row_word r)] /\
       fts_entries_for (row_id r) (entries_fts_trigram (conn st)) = [(row_id r, row_word r)]) /\
    (forall id w, In (id, w) (entries_fts (conn st)) \/ In (id, w) (entries_fts_trigram (conn st)) ->
       exists r, In r (entries (conn st)) /\ row_id r = id /\ row_word r = w).
Proof.
  eexists; split; [reflexivity|].
  apply (store_sink_fts_consistent
           [JObj [("word", JStr "chat")]; JObj [("word", JNum 7); ("pos", JStr "noun")]]).
  reflexivity.
Defined.

(** C2.  Batch flush exactness: whenever [k] writes and [close] complete,
    the table holds exactly [k] rows and nothing is pending.  When every
    projected record is storable (a dict whose word is non-null and whose
    word and pos are scalars, an integer among them within SQLite's
    64-bit range), the run does complete: [k] writes leave
    [k mod 100] entries pending and [100 * (k / 100)] rows stored (a flush
    happens exactly when the batch reaches 100), a flush of an empty batch
    changes nothing, and after [close] the table holds exactly [k] rows. *)
Theorem store_sink_batch_flush_exact (objs : list json) :
  (forall st, run_store objs = Ok st ->
     List.length (entries (conn st)) = List.length objs /\ batch st = []) /\
  (forallb storable objs = true ->
  (forall self, batch self = [] -> flush self = Ok self) /\
  (exists self, write_all SqliteOutput_init objs = Ok self /\
     List.length (batch self) = List.length objs mod 100 /\
     List.length (entries (conn self)) = 100 * (List.length objs / 100)) /\
  (exists st, run_store objs = Ok st /\
     List.length (entries (conn st)) = List.length objs /\ batch st = [])).
Proof.
  split.
  { intros st E; unfold run_store in E.
    destruct (write_all SqliteOutput_init objs) as [s1|] eqn:Ew; [|discriminate]; cbn [bind] in E.
    destruct (write_all_count objs SqliteOutput_init s1 Ew eq_refl ltac:(simpl; lia))
      as (_ & _ & C3); cbn [batch conn entries SqliteOutput_init init_sqlite_db List.length Nat.add] in C3.
    apply close_length in E as (E1 & E2 & _); split; [lia | exact E2]. }
  intro Hall; rewrite forallb_forall, <- Forall_forall in Hall.
  destruct (write_all_ok objs SqliteOutput_init eq_refl (Forall_nil _) eq_refl
              ltac:(simpl; lia) Hall) as (self & Ew & Ho & Hb).
  destruct (write_all_count objs SqliteOutput_init self Ew eq_refl ltac:(simpl; lia))
    as (_ & C2 & C3); cbn [batch conn entries SqliteOutput_init init_sqlite_db List.length Nat.add] in C2, C3.
  split; [|split].
  - intros s Hs; unfold flush; rewrite Hs; reflexivity.
  - exists self; split; [exact Ew | split; [exact C2|]].
    rewrite C2 in C3; pose proof (Nat.div_mod_eq (List.length objs) 100). lia.
  - destruct (close_ok self Ho Hb) as [st Ec].
    exists st; unfold run_store; rewrite Ew; cbn [bind]; split; [exact Ec|].
    apply close_length in Ec as (E1 & E2 & _); split; [lia | exact E2].
Qed.

Lemma store_sink_batch_flush_exact_witness :
  forallb storable (repeat (JObj [("word", JStr "mot"); ("pos", JStr "noun")]) 101) = true /\
  exists st, run_store (repeat (JObj [("word", JStr "mot"); ("pos", JStr "noun")]) 101) = Ok st /\
    List.length (entries (conn st)) = 101 /\ batch st = [].
Proof.
  split; [reflexivity|].
  destruct (proj2 (store_sink_batch_flush_exact
              (repeat (JObj [("word", JStr "mot"); ("pos", JStr "noun")]) 101)) eq_refl)
    as (_ & _ & st & E & H1 & H2).
  exists st; rewrite repeat_length in H1; auto.
Defined.

(** C3.  Object projection: for a dict schema (its keys distinct, as in
    any Python dict) and a dict record, the result holds, in the schema's
    key order, exactly the schema keys present in the record, each bound to
    the projection of the record's value under the schema's value; the
    result does not depend on the record's key order. *)
Theorem filter_by_schema_object (okv skv : dict) :
  NoDup (keys skv) ->
  filter_by_schema (JObj okv) (JObj skv) = JObj (projected_items okv skv) /\
  keys (projected_items okv skv) = filter (has_key okv) (keys skv) /\
  (forall k v, dict_lookup k (projected_items okv skv) = Some v <->
     exists ov sv, dict_lookup k okv = Some ov /\ dict_lookup k skv = Some sv /\
                   v = filter_by_schema ov sv) /\
  (forall okv', (forall k, dict_lookup k okv' = dict_lookup k okv) ->
     filter_by_schema (JObj okv') (JObj skv) = filter_by_schema (JObj okv) (JObj skv)).
Proof.
  intro Hnd.
  assert (Hobj : forall o, filter_by_schema (JObj o) (JObj skv) = JObj (projected_items o skv))
    by (intro o; cbn [filter_by_schema]; rewrite filter_keys_spec by (assumption || (simpl; tauto));
        reflexivity).
  split; [apply Hobj | split; [apply keys_projected_items | split]].
  - intros k v; apply lookup_projected_items; exact Hnd.
  - intros okv' Heq; rewrite !Hobj, (projected_items_ext okv okv' skv Heq); reflexivity.
Qed.

Lemma filter_by_schema_object_witness :
  NoDup (keys [("b", JStr ""); ("a", JStr "")]) /\
  filter_by_schema (JObj [("a", JNum 1); ("b", JNum 2); ("c", JNum 3)])
                   (JObj [("b", JStr ""); ("a", JStr "")])
  = JObj (projected_items [("a", JNum 1); ("b", JNum 2); ("c", JNum 3)]
                          [("b", JStr ""); ("a", JStr "")]).
Proof.
  assert (Hnd : NoDup (keys [("b", JStr ""); ("a", JStr "")]))
    by (simpl; constructor; [simpl; intros [H|H]; [discriminate | exact H] |
                             constructor; [simpl; tauto | constructor]]).
  split; [exact Hnd|].
  exact (proj1 (filter_by_schema_object [("a", JNum 1); ("b", JNum 2); ("c", JNum 3)]
                                        [("b", JStr ""); ("a", JStr "")] Hnd)).
Defined.

(** C4.  Array projection: under a schema array with a first element [e],
    a list record of length k becomes a list of length k whose i-th element
    is the i-th input element projected under [e]; an empty schema array
    passes any value through; a non-list record under a schema array is
    returned unchanged. *)
Theorem filter_by_schema_array (e : json) (es : list json) :
  (forall xs, exists ys,
     filter_by_schema (JArr xs) (JArr (e :: es)) = JArr ys /\
     List.length ys = List.length xs /\
     forall i, nth_error ys i = option_map (fun x => filter_by_schema x e) (nth_error xs i)) /\
  (forall v, filter_by_schema v (JArr []) = v) /\
  (forall v, match v with
             | JArr _ => True
             | _ => filter_by_schema v (JArr (e :: es)) = v
             end).
Proof.
  split; [|split].
  - intro xs; eexists; split; [reflexivity|]; split; [apply length_map|].
    intro i; apply nth_error_map.
  - destruct v; reflexivity.
  - destruct v; reflexivity.
Qed.

(** C5.  Pass-through: with no schema ([None]) every record is returned
    unchanged. *)
Theorem filter_by_schema_none (r : json) : filter_by_schema r JNull = r.
Proof. reflexivity. Qed.

(** C8 (counterexample).  A sink that has been closed still accepts a
    [write]: the entry is buffered and no error is raised. *)
Lemma write_after_close_accepted :
  exists st st',
    close SqliteOutput_init = Ok st /\ conn_open (conn st) = false /\
    write st (JObj [("word", JStr "mot")]) = Ok st' /\
    batch st' = [(JStr "mot", JStr "", JObj [("word", JStr "mot")])].
Proof. do 2 eexists; split; [reflexivity | split; [reflexivity | split; reflexivity]]. Qed.

(** C8 (as the code behaves).  [write] never looks at whether the
    connection is closed: on a closed sink a dict record below capacity is
    buffered and [write] returns normally; the write that fills the batch to
    capacity raises, because its flush runs on the closed connection; and
    no write after close changes the database. *)
Theorem write_after_close (self : SqliteOutput) (kvs : dict) :
  conn_open (conn self) = false -> batch_size self = 100 ->
  (List.length (batch self) < 99 ->
     write self (JObj kvs) = Ok (set_batch self (batch self ++ [entry_of kvs (JObj kvs)]))) /\
  (List.length (batch self) = 99 -> write self (JObj kvs) = Err ProgrammingError) /\
  (forall o self', write self o = Ok self' -> conn self' = conn self).
Proof.
  intros Hc Hs; split; [|split].
  - apply write_buffers; exact Hs.
  - intro Hl; rewrite write_fills by assumption.
    unfold flush; cbn [batch set_batch].
    destruct (batch self ++ _) eqn:Hb; [destruct (batch self); discriminate|].
    unfold executemany; simpl; rewrite Hc; reflexivity.
  - intros o self' E; unfold write in E; destruct o; try discriminate; cbn zeta in E.
    destruct (Nat.leb _ _).
    + unfold flush in E; cbn [batch set_batch] in E.
      destruct (batch self ++ _); [injection E as <-; reflexivity|].
      unfold executemany in E; simpl in E; rewrite Hc in E; discriminate.
    + injection E as <-; reflexivity.
Qed.

Lemma write_after_close_witness :
  exists st, close SqliteOutput_init = Ok st /\
    write st (JObj [("word", JStr "mot")]) =
      Ok (set_batch st (batch st ++ [entry_of [("word", JStr "mot")] (JObj [("word", JStr "mot")])])).
Proof.
  eexists; split; [reflexivity|].
  refine (proj1 (write_after_close _ [("word", JStr "mot")] _ _) _); first [reflexivity | simpl; lia].
Defined.

(** C10.  [write] takes [word] and [pos] with [.get(key, '')]: the empty
    string replaces a missing key only; a key bound to [null] puts [null]
    itself into the buffered entry. *)
Theorem write_entry_defaults (self : SqliteOutput) (kvs : dict) :
  batch_size self = 100 -> List.length (batch self) < 99 ->
  exists word pos,
    write self (JObj kvs) = Ok (set_batch self (batch self ++ [(word, pos, JObj kvs)])) /\
    (dict_lookup "word" kvs = None -> word = JStr "") /\
    (forall v, dict_lookup "word" kvs = Some v -> word = v) /\
    (dict_lookup "pos" kvs = None -> pos = JStr "") /\
    (forall v, dict_lookup "pos" kvs = Some v -> pos = v).
Proof.
  intros Hs Hl; exists (dict_get kvs "word" (JStr "")), (dict_get kvs "pos" (JStr "")).
  split.
  - apply write_buffers; assumption.
  - unfold dict_get.
    split; [intro H; rewrite H; reflexivity|].
    split; [intros v H; rewrite H; reflexivity|].
    split; [intro H; rewrite H; reflexivity | intros v H; rewrite H; reflexivity].
Qed.

Lemma write_entry_defaults_witness :
  exists word pos,
    write SqliteOutput_init (JObj [("word", JNull)]) =
      Ok (set_batch SqliteOutput_init [(word, pos, JObj [("word", JNull)])]) /\
    word = JNull /\ pos = JStr "".
Proof.
  destruct (write_entry_defaults SqliteOutput_init [("word", JNull)] eq_refl ltac:(simpl; lia))
    as (word & pos & E & _ & Hw & Hp & _).
  exists word, pos; split; [exact E|].
  split; [apply Hw; reflexivity | apply Hp; reflexivity].
Defined.

(** C6 (the divergence at a limit of 0).  With a limit of 0 and two
    matching records available, zero records have been written when the
    loop starts, yet it reads the first line and writes its record before
    stopping: the limit is tested only after a write (lines 305-312), so
    one record reaches the sink, not 0. *)
Lemma driver_cutoff_counterexample :
  process_lines (Some 0%Z) word_schema [Decodes fr_chat; Decodes fr_chien] 0 0 (mkJsonlOutput [] true)
    = Ok (1, 1, mkJsonlOutput [JObj [("word", JStr "chat")]] true).
Proof. reflexivity. Qed.

(** C6, where the code meets the cutoff: for a limit [n >= 1] and an
    input whose lines up to the [n]-th French record all decode to dicts,
    when the handler accepts the writes, the loop writes exactly the
    projections of the first [n] French records, in order, and stops after
    the line of the [n]-th: [lines_read] counts the lines up to it and
    [rest] is never looked at.  Other records are skipped and not
    counted. *)
Theorem driver_cutoff_exact {sink : Type} `{OutputHandler sink} (schema : json) (n : Z)
    (pre : list raw_line) (d : dict) (rest : list raw_line) (h0 h : sink) :
  (1 <= n)%Z ->
  forallb line_is_dict pre = true -> is_fr d = true ->
  Z.of_nat (S (List.length (fr_records pre))) = n ->
  write_seq h0 (map (project schema) (fr_records (pre ++ [Decodes (JObj d)]))) = Ok h ->
  process_lines (Some n) schema (pre ++ Decodes (JObj d) :: rest) 0 0 h0 =
  Ok (S (List.length pre), Z.to_nat n, h).
Proof.
  intros Hn Hd Hfr Hc Hw.
  rewrite (process_cutoff schema n pre d rest h0 h Hd Hfr ltac:(lia) ltac:(lia) Hw).
  repeat f_equal; lia.
Qed.

Lemma driver_cutoff_exact_witness :
  process_lines (Some 2%Z) word_schema
    ([Decodes fr_chat; Decodes en_cat] ++ Decodes fr_chien :: [Undecodable]) 0 0 (mkJsonlOutput [] true)
  = Ok (3, 2, mkJsonlOutput [JObj [("word", JStr "chat")]; JObj [("word", JStr "chien")]] true).
Proof.
  apply (driver_cutoff_exact word_schema 2 [Decodes fr_chat; Decodes en_cat]
           [("word", JStr "chien"); ("lang_code", JStr "fr")] [Undecodable]);
    first [lia | reflexivity].
Defined.

(** C9.  The limit is tested only after a write: a limit of 0 behaves
    exactly like a limit of 1, so when the input has a French record (the
    lines before it being dicts of other languages) that record is written
    and the loop stops after it. *)
Theorem driver_limit_zero_writes_one {sink : Type} `{OutputHandler sink} (schema : json) :
  (forall lines ro oo (h : sink),
     process_lines (Some 0%Z) schema lines ro oo h = process_lines (Some 1%Z) schema lines ro oo h) /\
  (forall pre d rest (h0 h : sink),
     forallb line_is_dict pre = true -> fr_records pre = [] -> is_fr d = true ->
     handler_write h0 (filter_by_schema (JObj d) schema) = Ok h ->
     process_lines (Some 0%Z) schema (pre ++ Decodes (JObj d) :: rest) 0 0 h0 =
     Ok (S (List.length pre), 1, h)).
Proof.
  split.
  - intros; apply process_limit_le_one; lia.
  - intros pre d rest h0 h Hd Hnil Hfr Hw.
    rewrite process_limit_le_one by lia.
    rewrite (process_cutoff schema 1 pre d rest h0 h Hd Hfr); rewrite ?Hnil; cbn; try lia.
    + reflexivity.
    + rewrite fr_records_snoc, Hnil by exact Hfr; cbn.
      unfold project; rewrite Hw; reflexivity.
Qed.

Lemma driver_limit_zero_writes_one_witness :
  process_lines (Some 0%Z) word_schema ([Decodes en_cat] ++ Decodes fr_chat :: [Decodes fr_chien]) 0 0
    (mkJsonlOutput [] true)
  = Ok (2, 1, mkJsonlOutput [JObj [("word", JStr "chat")]] true).
Proof.
  apply (proj2 (driver_limit_zero_writes_one word_schema)); reflexivity.
Defined.

(** C7.  Deletion is guarded: whichever operation of the compression pass
    raises, the original database is still there with its contents; and
    whenever the original is gone afterwards, the compressed file holds the
    whole compressed data. *)
Theorem compress_deletion_guarded (fault : io_fault) (lzfse_compress : bytes -> bytes)
    (db_path : string) (fs : filesystem) (data : bytes) :
  fs_lookup db_path fs = Some data ->
  (forall e, snd (compress_sqlite_db fault lzfse_compress db_path fs) = Err e ->
     fs_lookup db_path (fst (compress_sqlite_db fault lzfse_compress db_path fs)) = Some data) /\
  (fs_lookup db_path (fst (compress_sqlite_db fault lzfse_compress db_path fs)) = None ->
     fs_lookup (String.append db_path ".lzfse") (fst (compress_sqlite_db fault lzfse_compress db_path fs))
     = Some (lzfse_compress data)).
Proof.
  intro H.
  assert (Hne : String.append db_path ".lzfse" <> db_path) by (apply append_suffix_neq; discriminate).
  assert (Hne' : db_path <> String.append db_path ".lzfse") by congruence.
  unfold compress_sqlite_db, io_bind, read_file, open_write, write_bytes, getsize, remove,
    io_ret, io_raise.
  destruct fault; cbn zeta; fs_simpl H;
    try destruct (Nat.eqb (List.length data) 0); fs_simpl H;
    split; intros; first [reflexivity | discriminate].
Qed.

Lemma compress_deletion_guarded_witness :
  fs_lookup "dict.db" [("dict.db", [Byte.x01; Byte.x02])] = Some [Byte.x01; Byte.x02] /\
  snd (compress_sqlite_db (WriteFailsAfter 1) (@rev Byte.byte) "dict.db"
         [("dict.db", [Byte.x01; Byte.x02])]) = Err OSError /\
  fs_lookup "dict.db"
    (fst (compress_sqlite_db (WriteFailsAfter 1) (@rev Byte.byte) "dict.db"
            [("dict.db", [Byte.x01; Byte.x02])])) = Some [Byte.x01; Byte.x02].
Proof.
  split; [reflexivity | split; [reflexivity|]].
  apply (proj1 (compress_deletion_guarded (WriteFailsAfter 1) (@rev Byte.byte) "dict.db"
                  [("dict.db", [Byte.x01; Byte.x02])] [Byte.x01; Byte.x02] eq_refl) OSError).
  reflexivity.
Defined.

(* ================================================================== *)
(** * Further properties of the code *)

(** ** filter_by_schema *)

(** Projection is idempotent: under a schema whose dicts have distinct
    keys, projecting an already projected record changes nothing. *)
Theorem filter_by_schema_idempotent (s : json) :
  schema_wf s = true ->
  forall r, filter_by_schema (filter_by_schema r s) s = filter_by_schema r s.
Proof.
  induction s as [| b | z | str | xs IHxs | skv IHkv] using json_ind_nested;
    intros Hwf r; try reflexivity.
  - destruct xs as [|e es]; [reflexivity|].
    inversion IHxs as [|? ? IHe _]; subst; simpl in Hwf.
    destruct r as [| | | |items|]; try reflexivity; cbn [filter_by_schema].
    rewrite map_map; f_equal; apply map_ext; intro x; apply IHe; exact Hwf.
  - destruct (schema_wf_obj skv Hwf) as [Hnd Hsub].
    assert (Hobj : forall o, filter_by_schema (JObj o) (JObj skv) = JObj (projected_items o skv))
      by (intro o; cbn [filter_by_schema]; rewrite filter_keys_spec by (assumption || (simpl; tauto));
          reflexivity).
    destruct r as [| | | | |okv]; try reflexivity.
    rewrite !Hobj; f_equal; apply projected_items_pointwise.
    intros k sv Hin; rewrite (lookup_projected_items_some okv skv k sv Hnd Hin).
    destruct (dict_lookup k okv) as [ov|]; [|reflexivity].
    rewrite Forall_forall in IHkv; specialize (IHkv (k, sv) Hin); simpl in IHkv.
    rewrite IHkv by exact (Hsub k sv Hin); reflexivity.
Qed.

Lemma filter_by_schema_idempotent_witness :
  schema_wf (JObj [("word", JStr ""); ("senses", JArr [JObj [("glosses", JArr [JStr ""])]])]) = true /\
  filter_by_schema
    (filter_by_schema (JObj [("senses", JArr [JObj [("glosses", JArr [JStr "g"]); ("id", JNum 1)]]);
                             ("word", JStr "chat"); ("pos", JStr "noun")])
                      (JObj [("word", JStr ""); ("senses", JArr [JObj [("glosses", JArr [JStr ""])]])]))
    (JObj [("word", JStr ""); ("senses", JArr [JObj [("glosses", JArr [JStr ""])]])])
  = filter_by_schema (JObj [("senses", JArr [JObj [("glosses", JArr [JStr "g"]); ("id", JNum 1)]]);
                            ("word", JStr "chat"); ("pos", JStr "noun")])
                     (JObj [("word", JStr ""); ("senses", JArr [JObj [("glosses", JArr [JStr ""])]])]).
Proof.
  split; [reflexivity|].
  apply filter_by_schema_idempotent; reflexivity.
Defined.

(** ** SqliteOutput: what a completed run stores *)

(** When [k] writes and [close] complete, [entries] holds exactly one row
    per written record, in write order, with ids 1 to [k]: the word and
    pos read with [.get(.., '')] and stored as TEXT, the record itself as
    data; the AUTOINCREMENT counter ends at [k]. *)
Theorem run_store_rows_in_order (objs : list json) (st : SqliteOutput) :
  run_store objs = Ok st ->
  entries (conn st) = stored_rows 1 objs /\
  List.length (entries (conn st)) = List.length objs /\
  entries_seq (conn st) = Z.of_nat (List.length objs).
Proof.
  intro E; destruct (run_store_rows objs st E) as (ds & -> & R & L & S).
  rewrite stored_rows_dicts, R, length_map, L; auto.
Qed.

Lemma run_store_rows_in_order_witness :
  exists st,
    run_store [JObj [("pos", JStr "noun"); ("word", JStr "chat")]; JObj [("word", JNum 7)]] = Ok st /\
    entries (conn st) =
      [mkRow 1 (SqlText "chat") (SqlText "noun") (JObj [("pos", JStr "noun"); ("word", JStr "chat")]);
       mkRow 2 (SqlText "7") (SqlText "") (JObj [("word", JNum 7)])].
Proof.
  eexists; split; [reflexivity|].
  refine (proj1 (run_store_rows_in_order
                   [JObj [("pos", JStr "noun"); ("word", JStr "chat")]; JObj [("word", JNum 7)]] _ _)).
  reflexivity.
Defined.

(** A run of writes and [close] completes exactly when every record is a
    dict whose [word] binds to a non-null value and whose [pos] binds (an
    integer only within SQLite's 64-bit range, OverflowError otherwise);
    otherwise some [write] or the final flush raises, even when the bad
    record was only buffered. *)
Theorem run_store_ok_iff_storable (objs : list json) :
  (exists st, run_store objs = Ok st) <-> forallb storable objs = true.
Proof.
  split.
  - intros (st & E); destruct (run_store_rows objs st E) as (ds & -> & _ & L & _).
    assert (L' : List.length (expected_rows 1 (map dict_entry ds)) = List.length (map dict_entry ds))
      by (rewrite length_map; exact L).
    apply expected_rows_storable in L'; clear L; rename L' into L.
    apply forallb_forall; intros o Ho; apply in_map_iff in Ho as (d & <- & Hd).
    rewrite Forall_forall in L; exact (L (dict_entry d) (in_map _ _ _ Hd)).
  - intro Hall; rewrite forallb_forall, <- Forall_forall in Hall.
    destruct (write_all_ok objs SqliteOutput_init eq_refl (Forall_nil _) eq_refl
                ltac:(simpl; lia) Hall) as (self & Ew & Ho & Hb).
    destruct (close_ok self Ho Hb) as [st Ec].
    exists st; unfold run_store; rewrite Ew; exact Ec.
Qed.

(** ** The main loop *)

(** Without a limit and with the JSONL handler, an input whose lines all
    decode to dicts is read to the end: every line is counted, and the
    output is the projections of the records with [lang_code] "fr", in
    input order, after what the handler already held. *)
Theorem jsonl_no_limit_output (schema : json) (lines : list raw_line) (out : list json) (sc : bool) :
  forallb line_is_dict lines = true ->
  process_lines None schema lines 0 0 (mkJsonlOutput out sc) =
  Ok (List.length lines, List.length (fr_records lines),
      mkJsonlOutput (out ++ map (project schema) (fr_records lines)) sc).
Proof.
  intro Hd; rewrite <- (app_nil_r lines) at 1.
  rewrite (process_none_prefix schema lines [] 0 0 _ _ Hd (jsonl_write_seq out sc _)).
  reflexivity.
Qed.

Lemma jsonl_no_limit_output_witness :
  process_lines None word_schema [Decodes fr_chat; Decodes en_cat; Decodes fr_chien] 0 0
    (mkJsonlOutput [] false)
  = Ok (3, 2, mkJsonlOutput [JObj [("word", JStr "chat")]; JObj [("word", JStr "chien")]] false).
Proof.
  exact (jsonl_no_limit_output word_schema [Decodes fr_chat; Decodes en_cat; Decodes fr_chien] [] false
           eq_refl).
Defined.

(** A line that does not decode raises JSONDecodeError, and a line that
    decodes to anything but a dict raises AttributeError (from [.get]),
    whenever the loop reaches it: the lines before it are dicts, the
    handler accepted their writes and the limit was not reached. *)
Theorem process_bad_line_raises {sink : Type} `{OutputHandler sink} (n : option Z) (schema : json)
    (pre rest : list raw_line) (h0 h1 : sink) :
  forallb line_is_dict pre = true ->
  below_limit n (List.length (fr_records pre)) ->
  write_seq h0 (map (project schema) (fr_records pre)) = Ok h1 ->
  process_lines n schema (pre ++ Undecodable :: rest) 0 0 h0 = Err JSONDecodeError /\
  (forall v, line_is_dict (Decodes v) = false ->
     process_lines n schema (pre ++ Decodes v :: rest) 0 0 h0 = Err AttributeError).
Proof.
  intros Hd Hb Hw; split.
  - rewrite (process_below_prefix schema n pre _ 0 0 h0 h1 Hd Hb Hw); reflexivity.
  - intros v Hv; rewrite (process_below_prefix schema n pre _ 0 0 h0 h1 Hd Hb Hw).
    destruct v; first [discriminate | reflexivity].
Qed.

Lemma process_bad_line_raises_witness :
  process_lines (Some 5%Z) word_schema ([Decodes fr_chat; Decodes en_cat] ++ Undecodable :: [Decodes fr_chien])
    0 0 (mkJsonlOutput [] true) = Err JSONDecodeError /\
  process_lines (Some 5%Z) word_schema ([Decodes fr_chat; Decodes en_cat] ++ Decodes (JArr []) :: [Decodes fr_chien])
    0 0 (mkJsonlOutput [] true) = Err AttributeError.
Proof.
  destruct (@process_bad_line_raises JsonlOutput JsonlOutput_handler (Some 5%Z) word_schema [Decodes fr_chat; Decodes en_cat]
              [Decodes fr_chien] (mkJsonlOutput [] true) (mkJsonlOutput [JObj [("word", JStr "chat")]] true)
              eq_refl ltac:(simpl; lia) ltac:(reflexivity)) as [H1 H2].
  split; [exact H1 | apply H2; reflexivity].
Defined.

(** The two counters of the loop: [lines_read] counts the lines consumed,
    at most all of them; [lines_output] counts the French records among
    them; the loop stops before the end of the input only when a limit is
    set and [lines_output] has reached it; and [lines_output] never exceeds
    the larger of the limit and one more than its starting value. *)
Theorem process_lines_counters {sink : Type} `{OutputHandler sink} (n : option Z) (schema : json)
    (lines : list raw_line) :
  forall ro oo (h h' : sink) r o,
  process_lines n schema lines ro oo h = Ok (r, o, h') ->
  ro <= r <= ro + List.length lines /\
  o = oo + List.length (fr_records (firstn (r - ro) lines)) /\
  (r < ro + List.length lines -> exists n', n = Some n' /\ (n' <= Z.of_nat o)%Z) /\
  (forall n', n = Some n' -> (Z.of_nat o <= Z.max n' (Z.of_nat oo + 1))%Z).
Proof.
  induction lines as [|l lines IH]; intros ro oo h h' r o E; cbn [process_lines] in E.
  - injection E as <- <- _; rewrite Nat.sub_diag; cbn [firstn fr_records List.length].
    repeat split; try lia; intros n' _; lia.
  - destruct l as [[| | | | |d]|]; try discriminate.
    destruct (is_fr d) eqn:Hfr; cbn [negb] in E.
    + destruct (handler_write h _) as [h1|e]; cbn [bind] in E; [|discriminate].
      destruct n as [n'|].
      * destruct (Z.geb (Z.of_nat (S oo)) n') eqn:Hge; rewrite Z.geb_leb in Hge.
        { apply Z.leb_le in Hge; injection E as <- <- _.
          replace (S ro - ro) with 1 by lia; cbn [firstn fr_records List.length]; rewrite Hfr.
          cbn [List.length]; repeat split; try lia.
          intros _; exists n'; split; [reflexivity | lia]. }
        { apply Z.leb_gt in Hge.
          destruct (IH (S ro) (S oo) h1 h' r o E) as (I1 & I2 & I3 & I4).
          replace (r - ro) with (S (r - S ro)) by lia; cbn [firstn fr_records List.length]; rewrite Hfr.
          cbn [List.length]; repeat split; try lia.
          - intro Hr; apply I3; lia.
          - intros n'' E'; injection E' as <-; specialize (I4 n' eq_refl); lia. }
      * destruct (IH (S ro) (S oo) h1 h' r o E) as (I1 & I2 & I3 & I4).
        replace (r - ro) with (S (r - S ro)) by lia; cbn [firstn fr_records List.length]; rewrite Hfr.
        cbn [List.length]; repeat split; try lia.
        -- intro Hr; apply I3; lia.
        -- intros n'' E'; discriminate.
    + destruct (IH (S ro) oo h h' r o E) as (I1 & I2 & I3 & I4).
      replace (r - ro) with (S (r - S ro)) by lia; cbn [firstn fr_records List.length]; rewrite Hfr.
      cbn [List.length]; repeat split; try lia.
      * intro Hr; apply I3; lia.
      * exact I4.
Qed.

Lemma process_lines_counters_witness :
  process_lines (Some 1%Z) word_schema [Decodes en_cat; Decodes fr_chat; Undecodable] 0 0
    (mkJsonlOutput [] true) = Ok (2, 1, mkJsonlOutput [JObj [("word", JStr "chat")]] true) /\
  2 < 0 + List.length [Decodes en_cat; Decodes fr_chat; Undecodable] /\
  exists n', Some 1%Z = Some n' /\ (n' <= Z.of_nat 1)%Z.
Proof.
  split; [reflexivity|]; split; [simpl; lia|].
  refine (proj1 (proj2 (proj2 (@process_lines_counters JsonlOutput JsonlOutput_handler (Some 1%Z)
            word_schema [Decodes en_cat; Decodes fr_chat; Undecodable] 0 0 (mkJsonlOutput [] true)
            (mkJsonlOutput [JObj [("word", JStr "chat")]] true) 2 1 _))) _).
  - reflexivity.
  - simpl; lia.
Defined.

(** ** main's try/finally *)

(** A malformed line does not lose what was written before it: with the
    SQLite handler, when the loop reaches a line that does not decode (the
    schema passing the banner of line 284, the lines before the bad one
    being dicts, the limit not reached, their projections storable, and a
    requested compression not raising), [main] raises JSONDecodeError, but
    its [finally] clause has closed the handler, which flushed the pending
    batch: the database holds one row per French record before the bad
    line, in order. *)
Theorem main_bad_line_keeps_rows (n : option Z) (schema : json) (pre rest : list raw_line)
    (compress : option (result string)) :
  (py_truthy schema = false \/ exists kvs, schema = JObj kvs) ->
  (forall e, compress <> Some (Err e)) ->
  forallb line_is_dict pre = true ->
  below_limit n (List.length (fr_records pre)) ->
  forallb storable (map (project schema) (fr_records pre)) = true ->
  exists st,
    main_run n schema (pre ++ Undecodable :: rest) SqliteOutput_init compress
      = Ok (st, Err JSONDecodeError) /\
    entries (conn st) = stored_rows 1 (map (project schema) (fr_records pre)) /\
    conn_open (conn st) = false.
Proof.
  intros Hs Hcp Hd Hb Hall; rewrite forallb_forall, <- Forall_forall in Hall.
  destruct (compress_step_ok compress Hcp) as [p Ep].
  destruct (write_all_ok _ SqliteOutput_init eq_refl (Forall_nil _) eq_refl
              ltac:(simpl; lia) Hall) as (self & Ew & Ho & Hbt).
  destruct (close_ok self Ho Hbt) as [st Ec].
  exists st; split; [|split].
  - unfold main_run; rewrite (schema_keys_check_ok schema Hs); cbn [bind].
    rewrite (@main_loop_prefix SqliteOutput SqliteOutput_handler schema n pre _ 0 0
               SqliteOutput_init self Hd Hb ltac:(rewrite sqlite_write_seq; exact Ew)).
    cbn [main_loop bind]; change (handler_close self) with (close self); rewrite Ec.
    cbn [bind]; rewrite Ep; reflexivity.
  - assert (Er : run_store (map (project schema) (fr_records pre)) = Ok st)
      by (unfold run_store; rewrite Ew; exact Ec).
    destruct (run_store_rows _ st Er) as (ds & Eds & R & _ & _).
    rewrite Eds, stored_rows_dicts; exact R.
  - apply close_length in Ec as (_ & _ & Hc); exact Hc.
Qed.

Lemma main_bad_line_keeps_rows_witness :
  main_run None word_schema ([Decodes fr_chat; Decodes en_cat; Decodes fr_chien] ++ Undecodable :: [])
    SqliteOutput_init None =
  Ok (mkSqliteOutput
        (mkDatabase [mkRow 1 (SqlText "chat") (SqlText "") (JObj [("word", JStr "chat")]);
                     mkRow 2 (SqlText "chien") (SqlText "") (JObj [("word", JStr "chien")])]
                    2 [(1%Z, SqlText "chat"); (2%Z, SqlText "chien")]
                    [(1%Z, SqlText "chat"); (2%Z, SqlText "chien")] false) [] 100,
      Err JSONDecodeError) /\
  entries (conn (mkSqliteOutput
        (mkDatabase [mkRow 1 (SqlText "chat") (SqlText "") (JObj [("word", JStr "chat")]);
                     mkRow 2 (SqlText "chien") (SqlText "") (JObj [("word", JStr "chien")])]
                    2 [(1%Z, SqlText "chat"); (2%Z, SqlText "chien")]
                    [(1%Z, SqlText "chat"); (2%Z, SqlText "chien")] false) [] 100))
  = stored_rows 1 (map (project word_schema) (fr_records [Decodes fr_chat; Decodes en_cat; Decodes fr_chien])).
Proof.
  split; [reflexivity|].
  destruct (main_bad_line_keeps_rows None word_schema [Decodes fr_chat; Decodes en_cat; Decodes fr_chien] []
              None (or_intror (ex_intro _ _ eq_refl)) ltac:(discriminate) eq_refl I eq_refl)
    as (st & E & R & _).
  assert (Est : st = mkSqliteOutput
        (mkDatabase [mkRow 1 (SqlText "chat") (SqlText "") (JObj [("word", JStr "chat")]);
                     mkRow 2 (SqlText "chien") (SqlText "") (JObj [("word", JStr "chien")])]
                    2 [(1%Z, SqlText "chat"); (2%Z, SqlText "chien")]
                    [(1%Z, SqlText "chat"); (2%Z, SqlText "chien")] false) [] 100)
    by (vm_compute in E; congruence).
  rewrite <- Est; exact R.
Defined.

(** ** main's command line *)

(** The modes the command line selects are consistent: compression is
    only ever requested together with SQLite output; SQLite output always
    has a database path and never an output file; JSONL output never has a
    database path. *)
Theorem parse_args_modes (py_int : string -> option Z) (argv : list string) (c : config) :
  parse_args py_int argv = Some c ->
  (compress_db c = true -> use_sqlite c = true) /\
  (use_sqlite c = true -> output_file c = None /\ exists db, db_file c = Some db) /\
  (use_sqlite c = false -> db_file c = None /\ compress_db c = false).
Proof.
  unfold parse_args; destruct (parse_limit py_int argv) as [n off].
  destruct (nth_error argv off) as [a|];
    [destruct (String.eqb a "--sqlite");
       [destruct (nth_error argv (off + 1)) as [db|];
          [destruct (nth_error argv (off + 2)) as [x|]; [destruct (String.eqb x "--compress")|] |] |] |];
    intro E; try discriminate; injection E as <-; cbn;
    repeat split; first [discriminate | reflexivity | eauto].
Qed.

Lemma parse_args_modes_witness :
  parse_args decimal_int ["filter_jsonl.py"; "50"; "--sqlite"; "fr.db"; "--compress"; "in.jsonl"] =
    Some (mkConfig (Some 50%Z) true true (Some "fr.db") "in.jsonl" "schema.json" None) /\
  (compress_db (mkConfig (Some 50%Z) true true (Some "fr.db") "in.jsonl" "schema.json" None) = true ->
   use_sqlite (mkConfig (Some 50%Z) true true (Some "fr.db") "in.jsonl" "schema.json" None) = true).
Proof.
  split; [reflexivity|].
  apply (parse_args_modes decimal_int
           ["filter_jsonl.py"; "50"; "--sqlite"; "fr.db"; "--compress"; "in.jsonl"]); reflexivity.
Defined.

(** The only way the argument parsing exits is a [--sqlite] flag, in the
    option position, that is the last argument. *)
Theorem parse_args_exit_iff (py_int : string -> option Z) (argv : list string) :
  parse_args py_int argv = None <->
  nth_error argv (snd (parse_limit py_int argv)) = Some "--sqlite" /\
  List.length argv = S (snd (parse_limit py_int argv)).
Proof.
  unfold parse_args; destruct (parse_limit py_int argv) as [n off]; cbn [snd].
  destruct (nth_error argv off) as [a|] eqn:Ha.
  - assert (Hlt : off < List.length argv) by (apply nth_error_Some; congruence).
    destruct (String.eqb_spec a "--sqlite") as [->|Hne].
    + destruct (nth_error argv (off + 1)) as [db|] eqn:Hdb.
      * assert (off + 1 < List.length argv) by (apply nth_error_Some; congruence).
        destruct (nth_error argv (off + 2)) as [x|];
          [destruct (String.eqb x "--compress")|];
        split; [discriminate | intros [_ Hl]; lia | discriminate | intros [_ Hl]; lia
               | discriminate | intros [_ Hl]; lia].
      * apply nth_error_None in Hdb; split; [intros _; split; [reflexivity | lia] | reflexivity].
    + split; [discriminate | intros [E _]; injection E as E; congruence].
  - split; [discriminate | intros [E _]; discriminate].
Qed.

(** Parsing the command line that spells out a configuration gives it
    back, when its arguments cannot be mistaken for one another: the limit
    is written so that [int()] reads it back and, without a limit, the first
    argument is not an integer; a JSONL input file is not named [--sqlite]
    and, without [--compress], an SQLite input file is not named
    [--compress]. *)
Theorem parse_args_config_args (py_int : string -> option Z) (show_int : Z -> string)
    (prog : string) (c : config) :
  (forall z, limit c = Some z -> py_int (show_int z) = Some z) ->
  (limit c = None -> forall a, hd_error (config_args show_int c) = Some a -> py_int a = None) ->
  (use_sqlite c = true ->
     db_file c <> None /\ output_file c = None /\
     (compress_db c = false -> input_file c <> "--compress")) ->
  (use_sqlite c = false ->
     db_file c = None /\ compress_db c = false /\ input_file c <> "--sqlite") ->
  parse_args py_int (prog :: config_args show_int c) = Some c.
Proof.
  intros H1 H2 H3 H4.
  destruct c as [lim sq cp db inp sch out];
    cbn [limit use_sqlite compress_db db_file input_file output_file schema_file] in *.
  destruct sq.
  - destruct (H3 eq_refl) as (Hdb & -> & Hcp); destruct db as [db|]; [|congruence].
    destruct lim as [z|], cp;
      unfold parse_args, parse_limit, config_args, arg_default; cbn;
      first [rewrite (H1 z eq_refl) | rewrite (H2 eq_refl "--sqlite" eq_refl)];
      cbn; try reflexivity;
      rewrite (proj2 (String.eqb_neq _ _) (Hcp eq_refl)); reflexivity.
  - destruct (H4 eq_refl) as (-> & -> & Hinp).
    assert (Hs : String.eqb inp "--sqlite" = false) by (apply String.eqb_neq; exact Hinp).
    destruct lim as [z|], out;
      unfold parse_args, parse_limit, config_args, arg_default; cbn;
      first [rewrite (H1 z eq_refl) | rewrite (H2 eq_refl inp eq_refl)];
      cbn; rewrite Hs; reflexivity.
Qed.

Lemma parse_args_config_args_witness :
  parse_args decimal_int
    ("filter_jsonl.py" :: config_args (fun z => DecimalString.NilZero.string_of_int (Z.to_int z))
                            (mkConfig None false false None "in.jsonl" "schema.json" (Some "out.jsonl")))
  = Some (mkConfig None false false None "in.jsonl" "schema.json" (Some "out.jsonl")).
Proof.
  apply parse_args_config_args.
  - intros z E; discriminate.
  - intros _ a E; injection E as <-; reflexivity.
  - intro E; discriminate.
  - intros _; split; [reflexivity | split; [reflexivity | discriminate]].
Defined.

(** ** compress_sqlite_db *)

(** When no I/O operation fails and the database file is not empty, the
    pass returns the path of the compressed file, which holds the codec's
    output for the whole file (replacing any earlier file of that name);
    the original file is removed and no other file is touched. *)
Theorem compress_success (lzfse_compress : bytes -> bytes) (db_path : string) (fs : filesystem)
    (data : bytes) :
  fs_lookup db_path fs = Some data -> data <> [] ->
  snd (compress_sqlite_db NoFault lzfse_compress db_path fs) = Ok (String.append db_path ".lzfse") /\
  forall q, fs_lookup q (fst (compress_sqlite_db NoFault lzfse_compress db_path fs)) =
            if String.eqb q db_path then None
            else if String.eqb q (String.append db_path ".lzfse") then Some (lzfse_compress data)
            else fs_lookup q fs.
Proof.
  intros H Hnz.
  assert (Hne : String.append db_path ".lzfse" <> db_path) by (apply append_suffix_neq; discriminate).
  assert (Hne' : db_path <> String.append db_path ".lzfse") by congruence.
  assert (Hl : Nat.eqb (List.length data) 0 = false)
    by (apply Nat.eqb_neq; destruct data; [contradiction | discriminate]).
  unfold compress_sqlite_db, io_bind, read_file, open_write, write_bytes, getsize, remove,
    io_ret, io_raise; cbn zeta; fs_simpl H; rewrite Hl; fs_simpl H.
  split; [reflexivity|]; intro q.
  destruct (String.eqb_spec q db_path) as [->|Hq]; [apply fs_lookup_remove_eq|].
  rewrite fs_lookup_remove_neq by exact Hq.
  destruct (String.eqb_spec q (String.append db_path ".lzfse")) as [->|Hq'];
    [apply fs_lookup_set_eq | rewrite !fs_lookup_set_neq by exact Hq'; reflexivity].
Qed.

Lemma compress_success_witness :
  snd (compress_sqlite_db NoFault (@rev Byte.byte) "dict.db"
         [("dict.db", [Byte.x01; Byte.x02]); ("other", [])]) = Ok "dict.db.lzfse" /\
  fs_lookup "dict.db.lzfse"
    (fst (compress_sqlite_db NoFault (@rev Byte.byte) "dict.db"
            [("dict.db", [Byte.x01; Byte.x02]); ("other", [])])) = Some [Byte.x02; Byte.x01].
Proof.
  destruct (compress_success (@rev Byte.byte) "dict.db" [("dict.db", [Byte.x01; Byte.x02]); ("other", [])]
              [Byte.x01; Byte.x02] eq_refl ltac:(discriminate)) as [E1 E2].
  split; [exact E1 | rewrite E2; reflexivity].
Defined.

(** An empty database file makes the size ratio divide by zero: the pass
    raises ZeroDivisionError after writing the compressed file, and the
    empty original is kept. *)
Theorem compress_empty_db (lzfse_compress : bytes -> bytes) (db_path : string) (fs : filesystem) :
  fs_lookup db_path fs = Some [] ->
  snd (compress_sqlite_db NoFault lzfse_compress db_path fs) = Err ZeroDivisionError /\
  fs_lookup db_path (fst (compress_sqlite_db NoFault lzfse_compress db_path fs)) = Some [] /\
  fs_lookup (String.append db_path ".lzfse") (fst (compress_sqlite_db NoFault lzfse_compress db_path fs))
    = Some (lzfse_compress []).
Proof.
  intros H.
  assert (Hne : String.append db_path ".lzfse" <> db_path) by (apply append_suffix_neq; discriminate).
  assert (Hne' : db_path <> String.append db_path ".lzfse") by congruence.
  unfold compress_sqlite_db, io_bind, read_file, open_write, write_bytes, getsize, remove,
    io_ret, io_raise; cbn zeta; fs_simpl H.
  repeat split; reflexivity.
Qed.

Lemma compress_empty_db_witness :
  snd (compress_sqlite_db NoFault (fun _ => [Byte.x00]) "dict.db" [("dict.db", [])]) = Err ZeroDivisionError /\
  fs_lookup "dict.db" (fst (compress_sqlite_db NoFault (fun _ => [Byte.x00]) "dict.db" [("dict.db", [])]))
    = Some [] /\
  fs_lookup "dict.db.lzfse"
    (fst (compress_sqlite_db NoFault (fun _ => [Byte.x00]) "dict.db" [("dict.db", [])])) = Some [Byte.x00].
Proof.
  exact (compress_empty_db (fun _ => [Byte.x00]) "dict.db" [("dict.db", [])] eq_refl).
Defined.

(** With the SQLite handler and no limit, an input whose lines all decode
    to dicts, with storable projections, is read to the end (the schema
    passing the banner of line 284 and a requested compression not
    raising); after the [finally] clause has closed the handler, the
    database holds one row per French record, in input order, with ids 1,
    2, ..., and is closed. *)
Theorem main_sqlite_stores_all (schema : json) (lines : list raw_line)
    (compress : option (result string)) :
  (py_truthy schema = false \/ exists kvs, schema = JObj kvs) ->
  (forall e, compress <> Some (Err e)) ->
  forallb line_is_dict lines = true ->
  forallb storable (map (project schema) (fr_records lines)) = true ->
  exists st,
    main_run None schema lines SqliteOutput_init compress =
      Ok (st, Ok (List.length lines, List.length (fr_records lines))) /\
    entries (conn st) = stored_rows 1 (map (project schema) (fr_records lines)) /\
    conn_open (conn st) = false.
Proof.
  intros Hs Hcp Hd Hall; rewrite forallb_forall, <- Forall_forall in Hall.
  destruct (compress_step_ok compress Hcp) as [p Ep].
  destruct (write_all_ok _ SqliteOutput_init eq_refl (Forall_nil _) eq_refl
              ltac:(simpl; lia) Hall) as (self & Ew & Ho & Hbt).
  destruct (close_ok self Ho Hbt) as [st Ec].
  exists st; split; [|split].
  - unfold main_run; rewrite (schema_keys_check_ok schema Hs); cbn [bind].
    rewrite <- (app_nil_r lines) at 1.
    rewrite (@main_loop_prefix SqliteOutput SqliteOutput_handler schema None lines [] 0 0
               SqliteOutput_init self Hd I ltac:(rewrite sqlite_write_seq; exact Ew)).
    cbn [main_loop bind]; change (handler_close self) with (close self); rewrite Ec.
    cbn [bind]; rewrite Ep; reflexivity.
  - assert (Er : run_store (map (project schema) (fr_records lines)) = Ok st)
      by (unfold run_store; rewrite Ew; exact Ec).
    destruct (run_store_rows _ st Er) as (ds & Eds & R & _ & _).
    rewrite Eds, stored_rows_dicts; exact R.
  - apply close_length in Ec as (_ & _ & Hc); exact Hc.
Qed.

Lemma main_sqlite_stores_all_witness :
  exists st,
    main_run None word_schema [Decodes en_cat; Decodes fr_chat; Decodes fr_chien] SqliteOutput_init
      (Some (Ok "fr.db.lzfse")) =
      Ok (st, Ok (3, 2)) /\
    entries (conn st) =
      [mkRow 1 (SqlText "chat") (SqlText "") (JObj [("word", JStr "chat")]);
       mkRow 2 (SqlText "chien") (SqlText "") (JObj [("word", JStr "chien")])].
Proof.
  destruct (main_sqlite_stores_all word_schema [Decodes en_cat; Decodes fr_chat; Decodes fr_chien]
              (Some (Ok "fr.db.lzfse")) (or_intror (ex_intro _ _ eq_refl)) ltac:(discriminate)
              eq_refl eq_refl) as (st & E & R & _).
  exists st; split; [exact E | rewrite R; reflexivity].
Defined.

(** ** filter_by_schema never adds data *)

(** Under a schema whose dicts have distinct keys, the projection of a
    record is never larger than the record: it only drops dict items and
    keeps lists at their length. *)
Theorem filter_by_schema_size_le (s : json) :
  schema_wf s = true -> forall r, json_size (filter_by_schema r s) <= json_size r.
Proof.
  induction s as [| b | z | str | xs IHxs | skv IHkv] using json_ind_nested;
    intros Hwf r; try (cbn [filter_by_schema]; lia).
  - destruct xs as [|e es]; [cbn [filter_by_schema]; lia|].
    inversion IHxs as [|? ? IHe _]; subst; simpl in Hwf.
    destruct r as [| | | |items|]; cbn [filter_by_schema]; try lia.
    rewrite !json_size_arr, map_map; apply le_n_S, list_sum_map_le.
    intros x _; apply IHe; exact Hwf.
  - destruct (schema_wf_obj skv Hwf) as [Hnd Hsub].
    assert (Hobj : forall o, filter_by_schema (JObj o) (JObj skv) = JObj (projected_items o skv))
      by (intro o; cbn [filter_by_schema]; rewrite filter_keys_spec by (assumption || (simpl; tauto));
          reflexivity).
    destruct r as [| | | | |okv]; try (cbn [filter_by_schema]; lia).
    rewrite Hobj, !json_size_obj, projected_items_size; apply le_n_S.
    eapply Nat.le_trans with (m := list_sum (map (fun kv => lookup_size okv (fst kv)) skv)).
    + apply list_sum_map_le; intros [k sv] Hin; unfold lookup_size; cbn [fst].
      destruct (dict_lookup k okv) as [ov|]; [|lia].
      rewrite Forall_forall in IHkv; apply le_n_S, (IHkv (k, sv) Hin), (Hsub k sv Hin).
    + replace (list_sum (map (fun kv => lookup_size okv (fst kv)) skv))
        with (list_sum (map (lookup_size okv) (keys skv))) by (unfold keys; rewrite map_map; reflexivity).
      apply lookup_size_le; exact Hnd.
Qed.

Lemma filter_by_schema_size_le_witness :
  schema_wf word_schema = true /\
  json_size (filter_by_schema fr_chat word_schema) <= json_size fr_chat.
Proof.
  split; [reflexivity|].
  apply filter_by_schema_size_le; reflexivity.
Defined.

(** ** parse_schema_structure: the trailing-comma pass *)

(** The pass removes exactly the commas of the original text that are
    followed by whitespace and a closing bracket, and nothing else; since
    each removal is decided on the original text, a comma that only comes
    to precede a bracket once the next comma is gone survives: [,,]]
    becomes [,]], so the output can still have a trailing comma. *)
Theorem remove_trailing_commas_spec (content : list ascii) :
  remove_trailing_commas content = drop_commas_before_close content /\
  filter not_comma (remove_trailing_commas content) = filter not_comma content /\
  (forall w b, forallb py_space w = true -> (b = "}"%char \/ b = "]"%char) ->
     remove_trailing_commas (","%char :: ","%char :: w ++ [b]) = ","%char :: w ++ [b]).
Proof.
  assert (Hrm : forall s, remove_trailing_commas s = drop_commas_before_close s)
    by (intro s; apply sub_trailing_commas_drop; lia).
  split; [apply Hrm | split].
  - rewrite Hrm; induction content as [|c s IH]; [reflexivity|]; cbn [drop_commas_before_close].
    destruct (Ascii.eqb c ","%char) eqn:Hc; cbn [andb].
    + assert (Hn : not_comma c = false) by (unfold not_comma; rewrite Hc; reflexivity).
      destruct (match_close s); cbn [filter]; rewrite Hn; exact IH.
    + assert (Hn : not_comma c = true) by (unfold not_comma; rewrite Hc; reflexivity).
      cbn [filter]; rewrite Hn; f_equal; exact IH.
  - intros w b Hw Hb; rewrite Hrm.
    assert (Hwb : forallb not_comma (w ++ [b]) = true)
      by (rewrite forallb_app, forallb_spaces_not_comma by exact Hw;
          destruct Hb as [-> | ->]; reflexivity).
    pose proof (drop_commas_app (w ++ [b]) [] Hwb) as Hd; rewrite app_nil_r in Hd; cbn in Hd.
    rewrite app_nil_r in Hd.
    cbn [drop_commas_before_close].
    replace (match_close (","%char :: w ++ [b])) with (@None (list ascii * list ascii)) by reflexivity.
    rewrite match_close_spaces by assumption.
    change (Ascii.eqb ","%char ","%char) with true; cbn [andb].
    rewrite Hd; reflexivity.
Qed.

Lemma remove_trailing_commas_spec_witness :
  remove_trailing_commas [","%char; ","%char; " "%char; "]"%char] = [","%char; " "%char; "]"%char].
Proof.
  exact (proj2 (proj2 (remove_trailing_commas_spec [])) [" "%char] "]"%char eq_refl (or_intror eq_refl)).
Defined.

(** ** parse_schema_structure: the number pass *)

(** The [\bnumber\b] pass does not stop at string literals: a quoted [number] (a key or a value of the
    schema) becomes the string ["0"] wherever it stands, and the text on
    either side is rewritten as if on its own. *)
Theorem replace_number_quoted (a b : list ascii) :
  replace_number (a ++ (dquote :: number_word ++ dquote :: b)%char) =
  replace_number a ++ (dquote :: "0" :: dquote :: replace_number b)%char.
Proof.
  unfold replace_number at 1.
  rewrite sub_number_cut by (reflexivity || lia).
  fold (replace_number a). f_equal.
  rewrite sub_number_quote by (cbn [List.length]; lia).
  f_equal. unfold replace_number.
  replace (List.length (number_word ++ dquote :: b)%char) with (S (S (5 + List.length b)))
    by (rewrite length_app; reflexivity).
  apply sub_number_word. lia.
Qed.

(** ** main: the schema banner *)

(** A schema that is truthy but not a dict (a non-empty list or string, a
    non-zero number, [true]) makes [sorted(schema.keys())] on line 284
    raise AttributeError before the [try]: whatever the input and the
    handler, nothing is read, the handler is never closed and no
    compression runs. *)
Theorem main_schema_not_dict {sink : Type} `{OutputHandler sink} (n : option Z) (schema : json)
    (lines : list raw_line) (h0 : sink) (compress : option (result string)) :
  py_truthy schema = true -> (forall kvs, schema <> JObj kvs) ->
  main_run n schema lines h0 compress = Err AttributeError.
Proof.
  intros Ht Hn; unfold main_run, schema_keys_check; rewrite Ht.
  destruct schema as [| | | | |kvs]; try reflexivity.
  exfalso; exact (Hn kvs eq_refl).
Qed.

Lemma main_schema_not_dict_witness :
  main_run None (JArr [word_schema]) [Undecodable; Decodes fr_chat] SqliteOutput_init None
  = Err AttributeError.
Proof.
  apply (@main_schema_not_dict SqliteOutput SqliteOutput_handler); [reflexivity | discriminate].
Defined.
